(** * OnShape Touch: the gesture classifier and its event synthesizer

    A shallow embedding of [onshape-touch.user.ts]: the module-level
    variables of the user script become one [State] record, the three
    touch listeners and the context-menu timer callback become functions
    in a small state/effect monad, and the browser pieces the script talks
    to (the timer table, [document.getElementById], [window.screen.width],
    [Math.hypot]) are explicit. *)

From Stdlib Require Import PrimFloat List String Bool PeanoNat PArith NArith Lia.
Import ListNotations.

Local Open Scope float_scope.
Local Open Scope string_scope.
Local Open Scope list_scope.

(** ** JavaScript values *)

(** A JavaScript number is an IEEE 754 binary64 value. *)
Definition number : Set := float.

(** [ToBoolean] on a number: [+0], [-0] and [NaN] are falsy. *)
Definition truthy (x : number) : bool := negb (is_zero x || is_nan x).

(** The values stored in the event-init dictionaries of the script. *)
Inductive Value : Set :=
| VNum (x : number)
| VBool (b : bool).

(** An object literal, in source order.  A later key overrides an earlier
    one, which is how [{ a, ...eventInit, bubbles: true }] behaves. *)
Definition Dict : Set := list (string * Value).

Fixpoint get (k : string) (d : Dict) : option Value :=
  match d with
  | [] => None
  | (k', v) :: d' =>
      match get k d' with
      | Some v' => Some v'
      | None => if String.eqb k k' then Some v else None
      end
  end.

(** ** The DOM objects the script reads *)

Record Touch : Set := {
  screenX : number;
  screenY : number;
  clientX : number;
  clientY : number;
  pageX : number;
  pageY : number
}.

(** An event target; [target_id] is [None] for a target without an [id]
    property (the document, the window). *)
Record EventTarget : Set := { target_id : option string }.

Record TouchEvent : Set := {
  target : option EventTarget;
  touches : list Touch
}.

(** A DOM element, by identity. *)
Definition Element : Set := nat.

Inductive EventType : Set := mousewheel | mousedown | mouseup | mousemove.

Inductive EventCtor : Set := WheelEvent | MouseEvent.

(** A synthesized event: the constructor called, with its two arguments. *)
Record SynthEvent : Set := {
  ev_ctor : EventCtor;
  ev_type : EventType;
  ev_init : Dict
}.

(** What a listener does to the outside world. *)
Inductive Effect : Set :=
| PreventDefault
| Dispatch (on : Element) (ev : SynthEvent).

(** The browser around the script, as one notification sees it. *)
Record Env : Type := {
  getElementById : string -> option Element;
  screen_width : number;
  Math_hypot : number -> number -> number
}.

(** ** Constants *)

Definition ZOOM_SENSITIVITY : number := 10000.
Definition CONTEXT_MENU_TIMEOUT : N := 1000.

(** ** Script state *)

Module Mode.
Inductive t : Set := None | PreRotate | PreZoomPan | Rotate | ZoomPan.
End Mode.

(** A pending [setTimeout]: its handle (an integer greater than zero, so
    [if (contextMenuTimer)] is a null test), its delay, and the touch event
    its callback closes over. *)
Record Timer : Set := {
  handle : positive;
  delay : N;
  closure : TouchEvent
}.

Record State : Set := {
  canvas : option Element;
  mode : Mode.t;
  prevDistance : option number;
  contextMenuTimer : option positive;
  (* the browser's timer table *)
  timers : list Timer;
  nextHandle : positive
}.

Definition initial : State := {|
  canvas := None;
  mode := Mode.None;
  prevDistance := None;
  contextMenuTimer := None;
  timers := [];
  nextHandle := 1%positive
|}.

Definition with_canvas (c : option Element) (s : State) : State :=
  {| canvas := c; mode := mode s; prevDistance := prevDistance s;
     contextMenuTimer := contextMenuTimer s; timers := timers s;
     nextHandle := nextHandle s |}.

Definition with_mode (m : Mode.t) (s : State) : State :=
  {| canvas := canvas s; mode := m; prevDistance := prevDistance s;
     contextMenuTimer := contextMenuTimer s; timers := timers s;
     nextHandle := nextHandle s |}.

Definition with_prevDistance (d : option number) (s : State) : State :=
  {| canvas := canvas s; mode := mode s; prevDistance := d;
     contextMenuTimer := contextMenuTimer s; timers := timers s;
     nextHandle := nextHandle s |}.

Definition with_contextMenuTimer (h : option positive) (s : State) : State :=
  {| canvas := canvas s; mode := mode s; prevDistance := prevDistance s;
     contextMenuTimer := h; timers := timers s;
     nextHandle := nextHandle s |}.

(** ** The monad of a listener body *)

(** [result = None] records an uncaught [TypeError]: the listener stops
    there, and what it did before stays done. *)
Record Outcome (A : Type) : Type := {
  result : option A;
  final : State;
  effects : list Effect
}.
Arguments result {A} _.
Arguments final {A} _.
Arguments effects {A} _.

Definition M (A : Type) : Type := State -> Outcome A.

Definition ret {A} (a : A) : M A :=
  fun s => {| result := Some a; final := s; effects := [] |}.

Definition bind {A B} (m : M A) (k : A -> M B) : M B :=
  fun s =>
    let o := m s in
    match result o with
    | None => {| result := None; final := final o; effects := effects o |}
    | Some a =>
        let o' := k a (final o) in
        {| result := result o'; final := final o';
           effects := effects o ++ effects o' |}
    end.

Definition throw {A} : M A :=
  fun s => {| result := None; final := s; effects := [] |}.

Definition read {A} (f : State -> A) : M A :=
  fun s => {| result := Some (f s); final := s; effects := [] |}.

Definition modify (f : State -> State) : M unit :=
  fun s => {| result := Some tt; final := f s; effects := [] |}.

Definition emit (e : Effect) : M unit :=
  fun s => {| result := Some tt; final := s; effects := [e] |}.

Notation "x <- m ;; k" := (bind m (fun x => k))
  (at level 61, m at next level, right associativity).
Notation "m ;;; k" := (bind m (fun _ => k))
  (at level 61, right associativity).

(** ** The browser's timer table *)

Definition clearTimeout (h : positive) : M unit :=
  modify (fun s =>
    {| canvas := canvas s; mode := mode s; prevDistance := prevDistance s;
       contextMenuTimer := contextMenuTimer s;
       timers := filter (fun t => negb (Pos.eqb (handle t) h)) (timers s);
       nextHandle := nextHandle s |}).

Definition setTimeout (e : TouchEvent) (ms : N) : M positive :=
  fun s =>
    let h := nextHandle s in
    {| result := Some h;
       final :=
         {| canvas := canvas s; mode := mode s; prevDistance := prevDistance s;
            contextMenuTimer := contextMenuTimer s;
            timers := timers s ++ [{| handle := h; delay := ms; closure := e |}];
            nextHandle := Pos.succ h |};
       effects := [] |}.

(** ** [dispatchEvent] *)

Definition coordinates (ts : list Touch) : Dict :=
  match ts with
  | t0 :: t1 :: _ =>
      [ ("screenX", VNum ((screenX t0 + screenX t1) / 2));
        ("screenY", VNum ((screenY t0 + screenY t1) / 2));
        ("clientX", VNum ((clientX t0 + clientX t1) / 2));
        ("clientY", VNum ((clientY t0 + clientY t1) / 2));
        ("pageX", VNum ((pageX t0 + pageX t1) / 2));
        ("pageY", VNum ((pageY t0 + pageY t1) / 2)) ]
  | _ =>
      let at0 (f : Touch -> number) : number :=
        match ts with t0 :: _ => f t0 | [] => 0 end in
      [ ("screenX", VNum (at0 screenX));
        ("screenY", VNum (at0 screenY));
        ("clientX", VNum (at0 clientX));
        ("clientY", VNum (at0 clientY));
        ("pageX", VNum (at0 pageX));
        ("pageY", VNum (at0 pageY)) ]
  end.

Definition make_init (touchEvent : TouchEvent) (eventInit : Dict) : Dict :=
  coordinates (touches touchEvent) ++ eventInit ++ [("bubbles", VBool true)].

Definition construct (type : EventType) (init : Dict) : SynthEvent :=
  {| ev_ctor := match type with mousewheel => WheelEvent | _ => MouseEvent end;
     ev_type := type;
     ev_init := init |}.

Definition dispatchEvent (env : Env) (touchEvent : TouchEvent)
    (type : EventType) (eventInit : Dict) : M unit :=
  c <- read canvas ;;
  (match c with
   | Some _ => ret tt
   | None => modify (with_canvas (getElementById env "canvas"))
   end) ;;;
  let init := make_init touchEvent eventInit in
  c <- read canvas ;;
  match c with
  | Some el => emit (Dispatch el (construct type init))
  | None => ret tt
  end.

Arguments dispatchEvent : simpl never.

(** ** [checkEvent] *)

Definition foreign (touchEvent : TouchEvent) : bool :=
  match target touchEvent with
  | Some tg =>
      match target_id tg with
      | Some i => negb (String.eqb i "canvas")
      | None => false
      end
  | None => false
  end.

Definition checkEvent (touchEvent : TouchEvent) : M bool :=
  if foreign touchEvent then ret false
  else
    emit PreventDefault ;;;
    t <- read contextMenuTimer ;;
    (match t with
     | Some h => clearTimeout h ;;; modify (with_contextMenuTimer None)
     | None => ret tt
     end) ;;;
    ret true.

(** ** The three listeners and the timer callback *)

Definition contextMenu (env : Env) (e : TouchEvent) : M unit :=
  modify (with_mode Mode.None) ;;;
  modify (with_contextMenuTimer None) ;;;
  let common := [("button", VNum 2); ("buttons", VNum 2)] in
  dispatchEvent env e mousedown common ;;;
  dispatchEvent env e mouseup common.

Definition touchstart (env : Env) (e : TouchEvent) : M unit :=
  ok <- checkEvent e ;;
  if negb ok then ret tt
  else
    modify (with_mode (if Nat.leb 2 (List.length (touches e))
                       then Mode.PreZoomPan else Mode.PreRotate)) ;;;
    h <- setTimeout e CONTEXT_MENU_TIMEOUT ;;
    modify (with_contextMenuTimer (Some h)).

Definition touchmove (env : Env) (e : TouchEvent) : M unit :=
  ok <- checkEvent e ;;
  if negb ok then ret tt
  else
    m <- read mode ;;
    match m with
    | Mode.PreZoomPan =>
        modify (with_mode Mode.ZoomPan) ;;;
        dispatchEvent env e mousedown [("button", VNum 1); ("buttons", VNum 4)]
    | Mode.ZoomPan =>
        dispatchEvent env e mousemove [("button", VNum 2)] ;;;
        match touches e with
        | t0 :: t1 :: _ =>
            let distance :=
              Math_hypot env (screenX t0 - screenX t1) (screenY t0 - screenY t1) in
            p <- read prevDistance ;;
            (match p with
             | Some prev =>
                 if truthy prev then
                   dispatchEvent env e mousewheel
                     [("deltaY",
                       VNum (((distance - prev) / screen_width env)
                             * ZOOM_SENSITIVITY))]
                 else ret tt
             | None => ret tt
             end) ;;;
            modify (with_prevDistance (Some distance))
        | _ => throw
        end
    | Mode.PreRotate =>
        modify (with_mode Mode.Rotate) ;;;
        dispatchEvent env e mousedown [("button", VNum 2); ("buttons", VNum 2)]
    | Mode.Rotate =>
        dispatchEvent env e mousemove [("button", VNum 2); ("buttons", VNum 2)]
    | Mode.None => ret tt
    end.

Definition touchend (env : Env) (e : TouchEvent) : M unit :=
  ok <- checkEvent e ;;
  if negb ok then ret tt
  else
    m <- read mode ;;
    match m with
    | Mode.ZoomPan =>
        modify (with_mode Mode.None) ;;;
        modify (with_prevDistance None) ;;;
        dispatchEvent env e mouseup [("button", VNum 1); ("buttons", VNum 4)]
    | Mode.Rotate =>
        modify (with_mode Mode.None) ;;;
        dispatchEvent env e mouseup [("button", VNum 2); ("buttons", VNum 2)]
    | Mode.PreRotate =>
        modify (with_mode Mode.None) ;;;
        dispatchEvent env e mousemove [] ;;;
        dispatchEvent env e mousedown [] ;;;
        dispatchEvent env e mouseup []
    | Mode.PreZoomPan | Mode.None => ret tt
    end.

(** ** Notifications and runs *)

(** What the event loop can hand to the script: one of the three touch
    notifications, or the expiry of the pending timer with a given handle. *)
Inductive Notification : Set :=
| Touchstart (e : TouchEvent)
| Touchmove (e : TouchEvent)
| Touchend (e : TouchEvent)
| Timeout (h : positive).

Definition lookup_timer (h : positive) (s : State) : option Timer :=
  find (fun t => Pos.eqb (handle t) h) (timers s).

(** A timer that expires leaves the table, then its callback runs.  A handle
    that is not in the table (never armed, cleared, or already fired) does
    nothing. *)
Definition fire (env : Env) (h : positive) : M unit :=
  t <- read (lookup_timer h) ;;
  match t with
  | Some tm => clearTimeout h ;;; contextMenu env (closure tm)
  | None => ret tt
  end.

Definition step (env : Env) (n : Notification) : M unit :=
  match n with
  | Touchstart e => touchstart env e
  | Touchmove e => touchmove env e
  | Touchend e => touchend env e
  | Timeout h => fire env h
  end.

(** An uncaught exception ends one listener call only: the next
    notification starts from the state that call left. *)
Fixpoint run (s : State) (tr : list (Env * Notification)) : State * list Effect :=
  match tr with
  | [] => (s, [])
  | (env, n) :: tr' =>
      let o := step env n s in
      let r := run (final o) tr' in
      (fst r, effects o ++ snd r)
  end.

Definition reachable (s : State) : Prop :=
  exists tr, s = fst (run initial tr).

(** The notifications [checkEvent] lets through. *)
Definition accepted (n : Notification) : bool :=
  match n with
  | Touchstart e | Touchmove e | Touchend e => negb (foreign e)
  | Timeout _ => false
  end.

Definition rejected (n : Notification) : bool :=
  match n with
  | Touchstart e | Touchmove e | Touchend e => foreign e
  | Timeout _ => false
  end.

(** ** Reading synthesized events *)

Fixpoint events (l : list Effect) : list SynthEvent :=
  match l with
  | [] => []
  | Dispatch _ ev :: l' => ev :: events l'
  | PreventDefault :: l' => events l'
  end.

Definition num_field (k : string) (ev : SynthEvent) : option number :=
  match get k (ev_init ev) with
  | Some (VNum x) => Some x
  | _ => None
  end.

(** [MouseEventInit] defaults: [button] and [buttons] are 0 when the
    dictionary does not give them, [bubbles] is false. *)
Definition button (ev : SynthEvent) : number :=
  match num_field "button" ev with Some b => b | None => 0 end.

Definition buttons (ev : SynthEvent) : number :=
  match num_field "buttons" ev with Some b => b | None => 0 end.

Definition bubbles (ev : SynthEvent) : bool :=
  match get "bubbles" (ev_init ev) with Some (VBool b) => b | _ => false end.

Definition deltaY (ev : SynthEvent) : option number := num_field "deltaY" ev.

Definition coordinate_keys : list string :=
  ["screenX"; "screenY"; "clientX"; "clientY"; "pageX"; "pageY"].

(** The element [dispatchEvent] ends up dispatching on. *)
Definition resolve (env : Env) (s : State) : option Element :=
  match canvas s with
  | Some c => Some c
  | None => getElementById env "canvas"
  end.

(** ** The [addEventListener] patch *)

Section Patch.
(** The native registration mechanism, over whatever it mutates. *)
Variables (World Args Ret : Type).
Variable originalAddEventListener :
  EventTarget -> string -> Args -> World -> Ret * World.

(** [None] is the [undefined] a dropped registration returns. *)
Definition addEventListener (this : EventTarget) (type : string) (args : Args)
    : World -> option Ret * World :=
  fun w =>
    if negb (String.prefix "touch" type) then
      let r := originalAddEventListener this type args w in
      (Some (fst r), snd r)
    else (None, w).
End Patch.

(** ** A concrete browser, for running the model *)

Definition demo_env : Env := {|
  getElementById := fun i => if String.eqb i "canvas" then Some 7%nat else None;
  screen_width := 1920;
  Math_hypot := fun x y => sqrt (x * x + y * y)
|}.

Definition touch_at (x y : number) : Touch :=
  {| screenX := x; screenY := y; clientX := x; clientY := y;
     pageX := x; pageY := y |}.

Definition on_canvas (ts : list Touch) : TouchEvent :=
  {| target := Some {| target_id := Some "canvas" |}; touches := ts |}.

Definition on_toolbar (ts : list Touch) : TouchEvent :=
  {| target := Some {| target_id := Some "toolbar" |}; touches := ts |}.

(** * Vocabulary of the properties *)

(** ** Pieces of the closed forms *)

(** What [checkEvent] does to the state of an accepted notification: the
    timer the script remembers is cleared and forgotten. *)
Definition disarm (s : State) : State :=
  match contextMenuTimer s with
  | Some h => with_contextMenuTimer None (final (clearTimeout h s))
  | None => s
  end.

(** The state [touchstart] leaves once [checkEvent] has accepted. *)
Definition arm (e : TouchEvent) (s : State) : State :=
  with_contextMenuTimer (Some (nextHandle s))
    (final (setTimeout e CONTEXT_MENU_TIMEOUT
              (with_mode (if Nat.leb 2 (List.length (touches e))
                          then Mode.PreZoomPan else Mode.PreRotate) s))).

(** The [{ button: 2, buttons: 2 }] of the timer callback and of the
    rotate cases. *)
Definition common : Dict := [("button", VNum 2); ("buttons", VNum 2)].

(** An outcome with further effects in front of its own. *)
Definition after (l : list Effect) {A} (o : Outcome A) : Outcome A :=
  {| result := result o; final := final o; effects := l ++ effects o |}.

(** The effects of one [dispatchEvent] call made in state [s]. *)
Definition dispatched (env : Env) (s : State) (e : TouchEvent)
    (ty : EventType) (ei : Dict) : list Effect :=
  match resolve env s with
  | Some el => [Dispatch el (construct ty (make_init e ei))]
  | None => []
  end.

(** The separation [touchmove] computes while zooming. *)
Definition separation (env : Env) (t0 t1 : Touch) : number :=
  Math_hypot env (screenX t0 - screenX t1) (screenY t0 - screenY t1).

(** The [eventInit] of the wheel event. *)
Definition wheel_init (env : Env) (distance prev : number) : Dict :=
  [("deltaY", VNum (((distance - prev) / screen_width env) * ZOOM_SENSITIVITY))].

(** ** Two predicates on listener bodies *)

(** Every event the computation dispatches satisfies [P]. *)
Definition all_events (P : SynthEvent -> Prop) {A} (m : M A) : Prop :=
  forall s el ev, In (Dispatch el ev) (effects (m s)) -> P ev.

(** The computation keeps [P] of the state. *)
Definition preserves (P : State -> Prop) {A} (m : M A) : Prop :=
  forall s, P s -> P (final (m s)).

(** A property of the state that does not look at the script's [canvas],
    [mode] or [prevDistance]: it is about the timer alone. *)
Definition timer_only (P : State -> Prop) : Prop :=
  (forall c s, P s -> P (with_canvas c s)) /\
  (forall m s, P s -> P (with_mode m s)) /\
  (forall d s, P s -> P (with_prevDistance d s)).

(** ** The rules of the synthesizer *)

(** The coordinate rule in the words of the specification: the mean of two
    points, the point itself when there is one, zero when there is none. *)
Definition spec_coordinate (f : Touch -> number) (ts : list Touch) : number :=
  match ts with
  | [] => 0
  | [t0] => f t0
  | t0 :: t1 :: _ => (f t0 + f t1) / 2
  end.

(** The six coordinates of an event, each with the touch field it comes
    from. *)
Definition coordinate_fields : list (string * (Touch -> number)) :=
  [ ("screenX", screenX); ("screenY", screenY);
    ("clientX", clientX); ("clientY", clientY);
    ("pageX", pageX); ("pageY", pageY) ].

(** An [eventInit] that names no coordinate, as at every call in the
    script. *)
Definition no_coordinate_override (eventInit : Dict) : Prop :=
  forall k, In k coordinate_keys -> get k eventInit = None.

(** What the coordinate rule and the bubbling rule ask of one event. *)
Definition follows_rules (e : TouchEvent) (ev : SynthEvent) : Prop :=
  bubbles ev = true /\
  forall k f, In (k, f) coordinate_fields ->
    num_field k ev = Some (spec_coordinate f (touches e)).

(** The touch event a notification's synthesized events are computed from:
    the notification itself, or the touch-start a timer closed over. *)
Definition originating (n : Notification) (s : State) : option TouchEvent :=
  match n with
  | Touchstart e | Touchmove e | Touchend e => Some e
  | Timeout h => option_map closure (lookup_timer h s)
  end.

(** The touch event of a touch notification. *)
Definition event_of (n : Notification) : option TouchEvent :=
  match n with
  | Touchstart e | Touchmove e | Touchend e => Some e
  | Timeout _ => None
  end.

(** ** Invariants *)

(** The timer table holds exactly the timer the script remembers, and every
    handle handed out so far is below the next one. *)
Definition timer_inv (s : State) : Prop :=
  (forall t, In t (timers s) -> (handle t < nextHandle s)%positive) /\
  match contextMenuTimer s with
  | Some h => exists d e, timers s = [{| handle := h; delay := d; closure := e |}]
  | None => timers s = []
  end.

(** A handle that has been handed out and is no longer in the timer table:
    cleared, or fired. *)
Definition retired (h : positive) (s : State) : Prop :=
  (h < nextHandle s)%positive /\ lookup_timer h s = None.

(** What the touch-end path maintains: outside [Mode.ZoomPan] nothing is
    stored, and a timer is armed only in the two pending modes. *)
Definition clean (s : State) : Prop :=
  (mode s = Mode.ZoomPan \/ prevDistance s = None) /\
  (contextMenuTimer s = None \/
   mode s = Mode.PreRotate \/ mode s = Mode.PreZoomPan).

(** No touch-start is accepted while the script is in [Mode.ZoomPan]. *)
Fixpoint no_restart (s : State) (tr : list (Env * Notification)) : Prop :=
  match tr with
  | [] => True
  | (env, n) :: tr' =>
      (forall e, n = Touchstart e -> foreign e = false ->
                 mode s <> Mode.ZoomPan) /\
      no_restart (final (step env n s)) tr'
  end.

(** A run in which some accepted two-point move, handled in [Mode.ZoomPan],
    computed the separation [p]. *)
Definition pinch_move_recorded (tr : list (Env * Notification)) (p : number)
    : Prop :=
  exists tr1 env e t0 t1 rest tr2,
    tr = tr1 ++ (env, Touchmove e) :: tr2 /\
    foreign e = false /\
    mode (fst (run initial tr1)) = Mode.ZoomPan /\
    touches e = t0 :: t1 :: rest /\
    p = separation env t0 t1.

(** ** Sample inputs *)

(** Two fingers 100 apart, then 80 apart. *)
Definition wide : TouchEvent := on_canvas [touch_at 0 0; touch_at 100 0].
Definition narrow : TouchEvent := on_canvas [touch_at 0 0; touch_at 80 0].

(** Both fingers on one spot. *)
Definition coincident : TouchEvent := on_canvas [touch_at 50 50; touch_at 50 50].

(** A third finger lands while two are pinching. *)
Definition third_finger : TouchEvent :=
  on_canvas [touch_at 0 0; touch_at 100 0; touch_at 50 50].

(** Idle again after a pinch that a third finger interrupted and that ended
    in a long press: start, move, move (fingers 100 apart), a touch-start as
    the third finger lands, and the expiry of the timer it armed. *)
Definition stale_idle : State :=
  fst (run initial [ (demo_env, Touchstart wide); (demo_env, Touchmove wide);
                     (demo_env, Touchmove wide);
                     (demo_env, Touchstart third_finger);
                     (demo_env, Timeout 2) ]).

(** A state with a long-press timer armed: one finger has just landed. *)
Definition armed : State :=
  final (touchstart demo_env (on_canvas [touch_at 100 100]) initial).

(** A pinch under way whose last move saw the fingers 100 apart. *)
Definition pinching_100 : State :=
  fst (run initial [ (demo_env, Touchstart wide); (demo_env, Touchmove wide);
                     (demo_env, Touchmove wide) ]).

(** A pinch under way whose last move saw the fingers on one spot. *)
Definition pinching_0 : State :=
  fst (run initial [ (demo_env, Touchstart wide); (demo_env, Touchmove wide);
                     (demo_env, Touchmove coincident) ]).

(** A registry that records every call that reaches it. *)
Definition recording_registry
    (this : EventTarget) (type : string) (args : nat)
    (w : list (string * nat)) : unit * list (string * nat) :=
  (tt, w ++ [(type, args)]).

(** ** The listeners as one transition function *)

(** An outcome with no effect. *)
Definition quiet (s : State) : Outcome unit :=
  {| result := Some tt; final := s; effects := [] |}.

(** What one notification does, case by case: the four listeners with
    their monadic plumbing worked out. *)
Definition transition (env : Env) (n : Notification) (s : State) : Outcome unit :=
  match n with
  | Touchstart e =>
      if foreign e then quiet s
      else {| result := Some tt; final := arm e (disarm s);
              effects := [PreventDefault] |}
  | Touchmove e =>
      if foreign e then quiet s
      else
        match mode s with
        | Mode.None =>
            {| result := Some tt; final := disarm s;
               effects := [PreventDefault] |}
        | Mode.PreRotate =>
            {| result := Some tt;
               final := with_canvas (resolve env s)
                          (with_mode Mode.Rotate (disarm s));
               effects := PreventDefault :: dispatched env s e mousedown common |}
        | Mode.PreZoomPan =>
            {| result := Some tt;
               final := with_canvas (resolve env s)
                          (with_mode Mode.ZoomPan (disarm s));
               effects :=
                 PreventDefault ::
                 dispatched env s e mousedown
                   [("button", VNum 1); ("buttons", VNum 4)] |}
        | Mode.Rotate =>
            {| result := Some tt;
               final := with_canvas (resolve env s) (disarm s);
               effects := PreventDefault :: dispatched env s e mousemove common |}
        | Mode.ZoomPan =>
            match touches e with
            | t0 :: t1 :: _ =>
                {| result := Some tt;
                   final := with_prevDistance (Some (separation env t0 t1))
                              (with_canvas (resolve env s) (disarm s));
                   effects :=
                     PreventDefault ::
                     dispatched env s e mousemove [("button", VNum 2)] ++
                     match prevDistance s with
                     | Some prev =>
                         if truthy prev
                         then dispatched env s e mousewheel
                                (wheel_init env (separation env t0 t1) prev)
                         else []
                     | None => []
                     end |}
            | _ =>
                {| result := None;
                   final := with_canvas (resolve env s) (disarm s);
                   effects :=
                     PreventDefault ::
                     dispatched env s e mousemove [("button", VNum 2)] |}
            end
        end
  | Touchend e =>
      if foreign e then quiet s
      else
        match mode s with
        | Mode.ZoomPan =>
            {| result := Some tt;
               final := with_canvas (resolve env s)
                          (with_prevDistance None
                             (with_mode Mode.None (disarm s)));
               effects :=
                 PreventDefault ::
                 dispatched env s e mouseup
                   [("button", VNum 1); ("buttons", VNum 4)] |}
        | Mode.Rotate =>
            {| result := Some tt;
               final := with_canvas (resolve env s)
                          (with_mode Mode.None (disarm s));
               effects := PreventDefault :: dispatched env s e mouseup common |}
        | Mode.PreRotate =>
            {| result := Some tt;
               final := with_canvas (resolve env s)
                          (with_mode Mode.None (disarm s));
               effects :=
                 PreventDefault ::
                 dispatched env s e mousemove [] ++
                 dispatched env s e mousedown [] ++
                 dispatched env s e mouseup [] |}
        | Mode.PreZoomPan | Mode.None =>
            {| result := Some tt; final := disarm s;
               effects := [PreventDefault] |}
        end
  | Timeout h =>
      match lookup_timer h s with
      | Some tm =>
          {| result := Some tt;
             final := with_canvas (resolve env s)
                        (with_contextMenuTimer None
                           (with_mode Mode.None (final (clearTimeout h s))));
             effects :=
               dispatched env s (closure tm) mousedown common ++
               dispatched env s (closure tm) mouseup common |}
      | None => quiet s
      end
  end.

(** The mode after a notification, read off the two [switch] statements,
    the touch-start assignment and the timer callback. *)
Definition next_mode (n : Notification) (s : State) : Mode.t :=
  match n with
  | Touchstart e =>
      if foreign e then mode s
      else if Nat.leb 2 (List.length (touches e))
           then Mode.PreZoomPan else Mode.PreRotate
  | Touchmove e =>
      if foreign e then mode s
      else match mode s with
           | Mode.PreRotate => Mode.Rotate
           | Mode.PreZoomPan => Mode.ZoomPan
           | m => m
           end
  | Touchend e =>
      if foreign e then mode s
      else match mode s with
           | Mode.ZoomPan | Mode.Rotate | Mode.PreRotate => Mode.None
           | m => m
           end
  | Timeout h =>
      match lookup_timer h s with
      | Some _ => Mode.None
      | None => mode s
      end
  end.

(** ** Counting and projecting *)

(** How often [preventDefault] was called. *)
Fixpoint count_preventDefault (l : list Effect) : nat :=
  match l with
  | [] => 0
  | PreventDefault :: l' => S (count_preventDefault l')
  | Dispatch _ _ :: l' => count_preventDefault l'
  end.

(** The state without the cached canvas: what the classifier itself
    remembers, and the timer table. *)
Definition forget_canvas (s : State) : State := with_canvas None s.

(** What the host sees of an event at a glance: its type and the [button]
    and [buttons] the script passed, if any. *)
Definition summary (ev : SynthEvent) : EventType * option number * option number :=
  (ev_type ev, num_field "button" ev, num_field "buttons" ev).

(** A sequence of touch-move notifications. *)
Definition moves (l : list (Env * TouchEvent)) : list (Env * Notification) :=
  map (fun p => (fst p, Touchmove (snd p))) l.

(** Every touch event of the sequence passes [checkEvent]. *)
Definition all_accepted (l : list (Env * TouchEvent)) : Prop :=
  Forall (fun p => foreign (snd p) = false) l.

(** What one move in [Mode.ZoomPan] dispatches: a [mousemove] with button 2,
    alone or followed by a wheel event. *)
Definition pinch_chunk (c : list (EventType * option number * option number))
    : Prop :=
  c = [(mousemove, Some 2, None)] \/
  c = [(mousemove, Some 2, None); (mousewheel, None, None)].

(** ** Pending timers and event payloads *)

(** The pending mode a touch-start chooses. *)
Definition pending_mode (e : TouchEvent) : Mode.t :=
  if Nat.leb 2 (List.length (touches e)) then Mode.PreZoomPan else Mode.PreRotate.

(** Every pending timer is the context-menu timer of an accepted
    touch-start after which nothing has been accepted yet. *)
Definition pending_inv (s : State) : Prop :=
  forall t, In t (timers s) ->
    delay t = CONTEXT_MENU_TIMEOUT /\
    foreign (closure t) = false /\
    mode s = pending_mode (closure t).

(** The constructor and the payload fit the event type: a wheel event is a
    [WheelEvent] with a [deltaY] and no button; any other event is a
    [MouseEvent] without a [deltaY]. *)
Definition well_formed (ev : SynthEvent) : Prop :=
  match ev_type ev with
  | mousewheel =>
      ev_ctor ev = WheelEvent /\ deltaY ev <> None /\
      num_field "button" ev = None /\ num_field "buttons" ev = None
  | _ => ev_ctor ev = MouseEvent /\ deltaY ev = None
  end.

(** ** Registering listeners *)

(** A series of [addEventListener] calls, through whichever implementation
    is given; what the calls return is dropped. *)
Definition register_all {World Args R : Type}
    (add : EventTarget -> string -> Args -> World -> R * World)
    (regs : list (EventTarget * string * Args)) (w : World) : World :=
  fold_left (fun w r => snd (add (fst (fst r)) (snd (fst r)) (snd r) w)) regs w.

(** The callbacks that get registered: the script's own four, and the
    host's. *)
Inductive Listener : Set :=
| ManifestLoader
| OnTouchstart
| OnTouchmove
| OnTouchend
| Host (id : nat).

(** The listener and the [passive] option of a call. *)
Definition ListenerArgs : Set := (Listener * option bool)%type.

Record Registration : Set := {
  reg_target : EventTarget;
  reg_type : string;
  reg_listener : Listener;
  reg_passive : option bool
}.

(** What [EventTarget.prototype.addEventListener] holds: the browser's own
    function, or the script's patch around whatever was there before. *)
Inductive Impl : Set :=
| Native
| Patched (originalAddEventListener : Impl).

Record Page : Set := {
  prototype_addEventListener : Impl;
  registry : list Registration
}.

(** The browser's own [addEventListener]: the listener is registered. *)
Definition native (this : EventTarget) (type : string) (args : ListenerArgs)
    (p : Page) : unit * Page :=
  (tt, {| prototype_addEventListener := prototype_addEventListener p;
          registry := registry p ++
            [{| reg_target := this; reg_type := type;
                reg_listener := fst args; reg_passive := snd args |}] |}).

Fixpoint call (i : Impl) (this : EventTarget) (type : string)
    (args : ListenerArgs) (p : Page) : unit * Page :=
  match i with
  | Native => native this type args p
  | Patched original =>
      (tt, snd (addEventListener Page ListenerArgs unit (call original)
                  this type args p))
  end.

Definition document : EventTarget := {| target_id := None |}.

(** [document.addEventListener(type, listener, options)]: the function is
    looked up on the prototype when the call is made. *)
Definition document_addEventListener (type : string) (args : ListenerArgs)
    (p : Page) : Page :=
  snd (call (prototype_addEventListener p) document type args p).

(** The last statement of the script: the patch goes around whatever the
    prototype holds at that moment. *)
Definition install_patch (p : Page) : Page :=
  {| prototype_addEventListener := Patched (prototype_addEventListener p);
     registry := registry p |}.

(** The script from top to bottom, as far as registration goes. *)
Definition main (p : Page) : Page :=
  let p1 := document_addEventListener "DOMContentLoaded" (ManifestLoader, None) p in
  let p2 := document_addEventListener "touchstart" (OnTouchstart, Some false) p1 in
  let p3 := document_addEventListener "touchmove" (OnTouchmove, Some false) p2 in
  let p4 := document_addEventListener "touchend" (OnTouchend, Some false) p3 in
  install_patch p4.

Definition own_registration (type : string) (l : Listener) (passive : option bool)
    : Registration :=
  {| reg_target := document; reg_type := type;
     reg_listener := l; reg_passive := passive |}.

Definition own_listeners : list Registration :=
  [ own_registration "DOMContentLoaded" ManifestLoader None;
    own_registration "touchstart" OnTouchstart (Some false);
    own_registration "touchmove" OnTouchmove (Some false);
    own_registration "touchend" OnTouchend (Some false) ].

(** * Properties *)

(** ** Equations of the building blocks *)

Lemma foreign_true_iff (e : TouchEvent) :
  foreign e = true <->
  exists tg i, target e = Some tg /\ target_id tg = Some i /\ i <> "canvas".
Proof.
  unfold foreign. split.
  - destruct (target e) as [tg|]; [|discriminate].
    destruct (target_id tg) as [i|] eqn:Ei; [|discriminate].
    intros H. exists tg, i. repeat split; trivial.
    intros ->. rewrite String.eqb_refl in H. discriminate.
  - intros (tg & i & -> & -> & Hi).
    apply negb_true_iff, String.eqb_neq, Hi.
Qed.

Lemma dispatchEvent_eq env e ty ei s :
  dispatchEvent env e ty ei s =
  {| result := Some tt;
     final := with_canvas (resolve env s) s;
     effects := match resolve env s with
                | Some el => [Dispatch el (construct ty (make_init e ei))]
                | None => []
                end |}.
Proof.
  destruct s as [c m p t tm nh]. unfold dispatchEvent, resolve, bind, read.
  destruct c as [c|]; cbn; [reflexivity|].
  destruct (getElementById env "canvas"); reflexivity.
Qed.

Lemma checkEvent_foreign e s :
  foreign e = true ->
  checkEvent e s = {| result := Some false; final := s; effects := [] |}.
Proof. intros H. unfold checkEvent. rewrite H. reflexivity. Qed.

Lemma checkEvent_accept e s :
  foreign e = false ->
  checkEvent e s =
  {| result := Some true; final := disarm s; effects := [PreventDefault] |}.
Proof.
  intros H. unfold checkEvent, disarm. rewrite H.
  destruct s as [c m p t tm nh]. destruct t; reflexivity.
Qed.

Lemma find_filter_out (h : positive) (l : list Timer) :
  find (fun t => Pos.eqb (handle t) h)
       (filter (fun t => negb (Pos.eqb (handle t) h)) l) = None.
Proof.
  induction l as [|t l IH]; cbn; [reflexivity|].
  destruct (Pos.eqb (handle t) h) eqn:E; cbn; [exact IH|].
  rewrite E. exact IH.
Qed.

Lemma step_rejected env n s :
  rejected n = true ->
  step env n s = {| result := Some tt; final := s; effects := [] |}.
Proof.
  destruct n as [e|e|e|h]; cbn; try discriminate; intros H;
    unfold touchstart, touchmove, touchend, bind;
    rewrite (checkEvent_foreign _ _ H); reflexivity.
Qed.

Lemma effects_bind {A B} (m : M A) (k : A -> M B) (s : State) :
  exists rest, effects (bind m k s) = effects (m s) ++ rest.
Proof.
  unfold bind. destruct (result (m s)); cbn.
  - eexists; reflexivity.
  - exists []. symmetry. apply app_nil_r.
Qed.

Lemma step_accepted_prefix env n s :
  accepted n = true ->
  exists rest, effects (step env n s) = PreventDefault :: rest.
Proof.
  destruct n as [e|e|e|h]; cbn [accepted step]; try discriminate; intros H;
    apply negb_true_iff in H;
    unfold touchstart, touchmove, touchend;
    match goal with
    | |- context [bind ?m ?k s] =>
        destruct (effects_bind m k s) as [rest ->]
    end;
    rewrite (checkEvent_accept _ _ H); cbn; eauto.
Qed.

(** ** The interception gate *)

(** C7. A touch notification whose target has an id other than ['canvas']
    is rejected and leaves everything as it was: [checkEvent] answers
    [false], and each of the three listeners returns at once with the state
    unchanged and no effect (no [preventDefault], no timer cleared, no mode
    change, no event).  Every other notification is accepted: [checkEvent]
    answers [true], calls [preventDefault], and leaves no long-press timer
    behind (the variable is null and the handle it held is gone from the
    timer table); each listener starts with that [preventDefault]. *)
Theorem C7_interception_gate (e : TouchEvent) (s : State) :
  ((exists tg i, target e = Some tg /\ target_id tg = Some i /\ i <> "canvas") ->
     checkEvent e s = {| result := Some false; final := s; effects := [] |} /\
     (forall env n, In n [Touchstart e; Touchmove e; Touchend e] ->
        step env n s = {| result := Some tt; final := s; effects := [] |}))
  /\
  (~ (exists tg i, target e = Some tg /\ target_id tg = Some i /\ i <> "canvas") ->
     let o := checkEvent e s in
     result o = Some true /\
     effects o = [PreventDefault] /\
     contextMenuTimer (final o) = None /\
     (forall h, contextMenuTimer s = Some h -> lookup_timer h (final o) = None) /\
     mode (final o) = mode s /\
     prevDistance (final o) = prevDistance s /\
     (forall env n, In n [Touchstart e; Touchmove e; Touchend e] ->
        exists rest, effects (step env n s) = PreventDefault :: rest)).
Proof.
  split; intros H.
  - apply foreign_true_iff in H. split; [apply checkEvent_foreign, H|].
    intros env n Hn. apply step_rejected.
    cbn in Hn. destruct Hn as [<-|[<-|[<-|[]]]]; exact H.
  - assert (Hf : foreign e = false).
    { destruct (foreign e) eqn:E; [|reflexivity].
      exfalso. apply H, foreign_true_iff, E. }
    cbv zeta. rewrite (checkEvent_accept _ _ Hf). cbn [result effects final].
    unfold disarm, lookup_timer.
    repeat apply conj; try reflexivity.
    + destruct (contextMenuTimer s) eqn:E; [reflexivity | exact E].
    + intros h ->. cbn. apply find_filter_out.
    + destruct (contextMenuTimer s); reflexivity.
    + destruct (contextMenuTimer s); reflexivity.
    + intros env n Hn. apply step_accepted_prefix.
      cbn in Hn. destruct Hn as [<-|[<-|[<-|[]]]]; cbn; rewrite Hf; reflexivity.
Qed.

Lemma C7_interception_gate_witness :
  step demo_env (Touchmove (on_toolbar [touch_at 5 5])) armed
    = {| result := Some tt; final := armed; effects := [] |}
  /\ result (checkEvent (on_canvas [touch_at 5 5]) armed) = Some true
  /\ lookup_timer 1 (final (checkEvent (on_canvas [touch_at 5 5]) armed)) = None.
Proof.
  split.
  - destruct (C7_interception_gate (on_toolbar [touch_at 5 5]) armed) as [H _].
    destruct H as [_ Hs].
    + exists {| target_id := Some "toolbar" |}, "toolbar".
      repeat apply conj; try reflexivity; discriminate.
    + apply Hs. cbn. auto.
  - destruct (C7_interception_gate (on_canvas [touch_at 5 5]) armed) as [_ H].
    destruct H as (H1 & _ & _ & H4 & _).
    + intros (tg & i & Ht & Hi & Hne). cbn in Ht.
      injection Ht as <-. cbn in Hi. injection Hi as <-. apply Hne. reflexivity.
    + split; [exact H1 | apply H4; reflexivity].
Defined.

(** ** Listener suppression *)

Lemma prefix_app (p s : string) :
  String.prefix p s = true <-> exists r, s = (p ++ r)%string.
Proof.
  revert s. induction p as [|a p IH]; intros s; cbn.
  - split; [intros _; exists s; reflexivity | intros _; destruct s; reflexivity].
  - destruct s as [|b s]; cbn.
    + split; [discriminate | intros [r Hr]; discriminate].
    + destruct (Ascii.ascii_dec a b) as [->|Hab].
      * rewrite IH. split; intros [r Hr]; exists r; congruence.
      * split; [discriminate | intros [r Hr]; congruence].
Qed.

(** C8. A call to the patched [addEventListener] whose event type starts
    with ['touch'] is dropped: it returns [undefined] and changes nothing,
    whatever the original mechanism would have done (it is not called).  A
    call with any other type is the original call, on the same receiver and
    arguments. *)
Theorem C8_touch_listener_registration_dropped
    (World Args Ret : Type)
    (original : EventTarget -> string -> Args -> World -> Ret * World)
    (this : EventTarget) (type : string) (args : Args) (w : World) :
  ((exists rest, type = ("touch" ++ rest)%string) ->
     forall other : EventTarget -> string -> Args -> World -> Ret * World,
       addEventListener World Args Ret other this type args w = (None, w))
  /\
  (~ (exists rest, type = ("touch" ++ rest)%string) ->
     addEventListener World Args Ret original this type args w
       = (Some (fst (original this type args w)),
          snd (original this type args w))).
Proof.
  unfold addEventListener. split; intros H.
  - intros other. apply prefix_app in H. rewrite H. reflexivity.
  - destruct (String.prefix "touch" type) eqn:E; [|reflexivity].
    exfalso. apply H, prefix_app, E.
Qed.

Lemma C8_touch_listener_registration_dropped_witness :
  addEventListener _ _ _ recording_registry
    {| target_id := None |} "touchstart" 3%nat [] = (None, [])
  /\ addEventListener _ _ _ recording_registry
       {| target_id := None |} "mousedown" 3%nat []
     = (Some tt, [("mousedown", 3%nat)]).
Proof.
  destruct (C8_touch_listener_registration_dropped _ _ _ recording_registry
              {| target_id := None |} "touchstart" 3%nat []) as [H _].
  destruct (C8_touch_listener_registration_dropped _ _ _ recording_registry
              {| target_id := None |} "mousedown" 3%nat []) as [_ H'].
  split.
  - apply H. exists "start". reflexivity.
  - apply H'. intros [r Hr]. discriminate.
Defined.

(** ** The synthesizer *)

Lemma get_app (k : string) (a b : Dict) :
  get k (a ++ b) =
  match get k b with Some v => Some v | None => get k a end.
Proof.
  induction a as [|[k' v] a IH]; cbn.
  - destruct (get k b); reflexivity.
  - rewrite IH. destruct (get k b); reflexivity.
Qed.

Lemma make_init_bubbles e ei :
  get "bubbles" (make_init e ei) = Some (VBool true).
Proof. unfold make_init. rewrite !get_app. reflexivity. Qed.

Lemma make_init_coordinate e ei k f :
  In (k, f) coordinate_fields ->
  get k ei = None ->
  get k (make_init e ei) = Some (VNum (spec_coordinate f (touches e))).
Proof.
  intros Hk Hei. unfold make_init. rewrite !get_app, Hei.
  destruct (touches e) as [|t0 [|t1 r]];
    cbn in Hk; decompose [or] Hk; try contradiction;
    match goal with H : (_, _) = (_, _) |- _ => injection H as <- <- end;
    reflexivity.
Qed.

Lemma dispatchEvent_event env e ty ei s el ev :
  In (Dispatch el ev) (effects (dispatchEvent env e ty ei s)) ->
  resolve env s = Some el /\ ev = construct ty (make_init e ei).
Proof.
  rewrite dispatchEvent_eq. cbn [effects].
  destruct (resolve env s) as [c|]; cbn; [|contradiction].
  intros [H|[]]. injection H as <- <-. auto.
Qed.

(** *** A small logic for "every event a computation dispatches" *)

Lemma in_effects_bind {A B} (m : M A) (k : A -> M B) (s : State) (x : Effect) :
  In x (effects (bind m k s)) ->
  In x (effects (m s)) \/
  exists a, result (m s) = Some a /\ In x (effects (k a (final (m s)))).
Proof.
  unfold bind. destruct (result (m s)) as [a|]; cbn; [|auto].
  intros H. apply in_app_or in H. destruct H; eauto.
Qed.

Section AllEvents.
Variable P : SynthEvent -> Prop.

Lemma all_events_ret {A} (a : A) : all_events P (ret a).
Proof. intros s el ev []. Qed.

Lemma all_events_throw {A} : all_events P (@throw A).
Proof. intros s el ev []. Qed.

Lemma all_events_read {A} (f : State -> A) : all_events P (read f).
Proof. intros s el ev []. Qed.

Lemma all_events_modify f : all_events P (modify f).
Proof. intros s el ev []. Qed.

Lemma all_events_preventDefault : all_events P (emit PreventDefault).
Proof. intros s el ev [H|[]]. discriminate. Qed.

Lemma all_events_bind {A B} (m : M A) (k : A -> M B) :
  all_events P m -> (forall a, all_events P (k a)) -> all_events P (bind m k).
Proof.
  intros Hm Hk s el ev H. apply in_effects_bind in H.
  destruct H as [H|(a & _ & H)]; [eapply Hm | eapply Hk]; eassumption.
Qed.

Lemma all_events_setTimeout e ms : all_events P (setTimeout e ms).
Proof. intros s el ev []. Qed.
End AllEvents.

Create HintDb events.
#[export] Hint Resolve all_events_ret all_events_throw all_events_read
  all_events_modify all_events_preventDefault all_events_setTimeout : events.

(** One syntax-directed step through a listener body. *)
Ltac all_events_step :=
  lazymatch goal with
  | |- all_events _ (bind _ _) => apply all_events_bind; [|intros ?]
  | |- all_events _ (match ?x with _ => _ end) => destruct x
  | |- all_events _ (clearTimeout _) => unfold clearTimeout; auto with events
  | |- all_events _ _ => solve [auto with events]
  end.

Lemma construct_follows_rules e ty ei :
  no_coordinate_override ei -> follows_rules e (construct ty (make_init e ei)).
Proof.
  intros Hei. split.
  - unfold bubbles. cbn [ev_init construct]. rewrite make_init_bubbles. reflexivity.
  - intros k f Hk. unfold num_field. cbn [ev_init construct].
    rewrite (make_init_coordinate e ei k f Hk); [reflexivity|].
    apply Hei. unfold coordinate_keys.
    change k with (fst (k, f)).
    apply (in_map fst coordinate_fields (k, f)) in Hk. exact Hk.
Qed.

Lemma all_events_dispatchEvent env e ty ei :
  no_coordinate_override ei ->
  all_events (follows_rules e) (dispatchEvent env e ty ei).
Proof.
  intros Hei s el ev H. apply dispatchEvent_event in H as [_ ->].
  apply construct_follows_rules, Hei.
Qed.

Ltac no_override :=
  let k := fresh "k" in
  let Hk := fresh "Hk" in
  intros k Hk; cbn in Hk; decompose [or] Hk; subst;
  try contradiction; reflexivity.

Lemma all_events_checkEvent P e : all_events P (checkEvent e).
Proof. unfold checkEvent. repeat all_events_step. Qed.

#[export] Hint Resolve all_events_checkEvent : events.

Ltac listener_events :=
  repeat
    lazymatch goal with
    | |- all_events _ (dispatchEvent _ _ _ _) =>
        apply all_events_dispatchEvent; no_override
    | |- _ => all_events_step
    end.

Lemma all_events_contextMenu env e :
  all_events (follows_rules e) (contextMenu env e).
Proof. unfold contextMenu. listener_events. Qed.

Lemma all_events_touchstart P env e : all_events P (touchstart env e).
Proof. unfold touchstart. repeat all_events_step. Qed.

Lemma all_events_touchmove env e :
  all_events (follows_rules e) (touchmove env e).
Proof. unfold touchmove. listener_events. Qed.

Lemma all_events_touchend env e :
  all_events (follows_rules e) (touchend env e).
Proof. unfold touchend. listener_events. Qed.

(** C9. Every event [dispatchEvent] synthesizes bubbles, whatever the
    caller's [eventInit] holds; and unless that [eventInit] itself names a
    coordinate, each of screenX/Y, clientX/Y and pageX/Y is the mean of the
    two touch points' values when the touch event carries two (the first two
    when it carries more), the one point's value when it carries one, and
    zero when it carries none.  No call in the script passes a coordinate, so
    every event any listener or the timer callback dispatches obeys both
    rules with respect to its originating touch event. *)
Theorem C9_coordinates_and_bubbling :
  (forall env e ty eventInit s el ev,
      In (Dispatch el ev) (effects (dispatchEvent env e ty eventInit s)) ->
      bubbles ev = true /\
      (no_coordinate_override eventInit ->
       forall k f, In (k, f) coordinate_fields ->
         num_field k ev = Some (spec_coordinate f (touches e))))
  /\
  (forall env n s el ev,
      In (Dispatch el ev) (effects (step env n s)) ->
      exists e, originating n s = Some e /\
        bubbles ev = true /\
        forall k f, In (k, f) coordinate_fields ->
          num_field k ev = Some (spec_coordinate f (touches e))).
Proof.
  split.
  - intros env e ty ei s el ev H. apply dispatchEvent_event in H as [_ ->].
    split.
    + unfold bubbles. cbn [ev_init construct].
      rewrite make_init_bubbles. reflexivity.
    + intros Hei. apply construct_follows_rules, Hei.
  - intros env n s el ev H. destruct n as [e|e|e|h]; cbn [step originating] in *.
    + exfalso. exact (all_events_touchstart (fun _ => False) env e s el ev H).
    + exists e. split; [reflexivity|]. exact (all_events_touchmove env e s el ev H).
    + exists e. split; [reflexivity|]. exact (all_events_touchend env e s el ev H).
    + unfold fire in H. apply in_effects_bind in H.
      destruct H as [[]|(t & Ht & H)]. cbn in Ht. injection Ht as <-.
      cbn [final read] in H.
      destruct (lookup_timer h s) as [tm|]; [|destruct H].
      exists (closure tm). split; [reflexivity|].
      assert (Hc : all_events (follows_rules (closure tm))
                     (clearTimeout h ;;; contextMenu env (closure tm))).
      { apply all_events_bind; [all_events_step|].
        intros _. apply all_events_contextMenu. }
      exact (Hc s el ev H).
Qed.

Lemma C9_coordinates_and_bubbling_witness :
  let e := on_canvas [touch_at 0 0; touch_at 80 0] in
  let ev := construct mousedown (make_init e [("bubbles", VBool false)]) in
  bubbles ev = true /\ num_field "screenX" ev = Some 40 /\
  num_field "pageY" ev = Some 0.
Proof.
  intros e ev.
  destruct C9_coordinates_and_bubbling as [H _].
  destruct (H demo_env e mousedown [("bubbles", VBool false)] initial 7%nat ev)
    as [Hb Hc].
  - left. reflexivity.
  - split; [exact Hb|].
    assert (Hn : no_coordinate_override [("bubbles", VBool false)])
      by (intros k Hk; cbn in Hk; decompose [or] Hk; subst;
          try contradiction; reflexivity).
    split.
    + apply (Hc Hn "screenX" screenX). cbn. auto.
    + apply (Hc Hn "pageY" pageY). cbn. auto 7.
Defined.

(** ** What a listener leaves untouched *)

Section Preserves.
Variable P : State -> Prop.

Lemma preserves_ret {A} (a : A) : preserves P (ret a).
Proof. intros s H. exact H. Qed.

Lemma preserves_throw {A} : preserves P (@throw A).
Proof. intros s H. exact H. Qed.

Lemma preserves_read {A} (f : State -> A) : preserves P (read f).
Proof. intros s H. exact H. Qed.

Lemma preserves_emit x : preserves P (emit x).
Proof. intros s H. exact H. Qed.

Lemma preserves_modify f : (forall s, P s -> P (f s)) -> preserves P (modify f).
Proof. intros Hf s H. apply Hf, H. Qed.

Lemma preserves_bind {A B} (m : M A) (k : A -> M B) :
  preserves P m -> (forall a, preserves P (k a)) -> preserves P (bind m k).
Proof.
  intros Hm Hk s H. unfold bind. specialize (Hm s H).
  destruct (result (m s)) as [a|]; cbn; [apply Hk|]; exact Hm.
Qed.

Hypothesis HP : timer_only P.

Lemma preserves_dispatchEvent env e ty ei : preserves P (dispatchEvent env e ty ei).
Proof.
  intros s H. rewrite dispatchEvent_eq. cbn [final]. apply HP, H.
Qed.

Lemma preserves_with_mode m : preserves P (modify (with_mode m)).
Proof. apply preserves_modify. apply HP. Qed.

Lemma preserves_with_prevDistance d : preserves P (modify (with_prevDistance d)).
Proof. apply preserves_modify. apply HP. Qed.
End Preserves.

Ltac preserves_step HP :=
  lazymatch goal with
  | |- preserves _ (bind _ _) => apply preserves_bind; [|intros ?]
  | |- preserves _ (match ?x with _ => _ end) => destruct x
  | |- preserves _ (dispatchEvent _ _ _ _) => apply preserves_dispatchEvent, HP
  | |- preserves _ (modify (with_mode _)) => apply preserves_with_mode, HP
  | |- preserves _ (modify (with_prevDistance _)) =>
      apply preserves_with_prevDistance, HP
  | |- preserves _ (ret _) => apply preserves_ret
  | |- preserves _ throw => apply preserves_throw
  | |- preserves _ (read _) => apply preserves_read
  | |- preserves _ (emit _) => apply preserves_emit
  end.

Lemma final_after_checkEvent {B} (e : TouchEvent) (k : bool -> M B) (s : State) :
  final (bind (checkEvent e) k s) =
  final (k (negb (foreign e)) (final (checkEvent e s))).
Proof.
  unfold bind. destruct (foreign e) eqn:F.
  - rewrite (checkEvent_foreign _ _ F). reflexivity.
  - rewrite (checkEvent_accept _ _ F). reflexivity.
Qed.

(** Past [checkEvent], [touchmove] and [touchend] never touch the timer. *)
Lemma touchmove_timer_frame P env e s :
  timer_only P -> P (final (checkEvent e s)) -> P (final (touchmove env e s)).
Proof.
  intros HP H. unfold touchmove. rewrite final_after_checkEvent.
  cbv beta.
  match goal with
  | |- P (final (?m ?s0)) => cut (preserves P m); [intros Hm; exact (Hm s0 H)|]
  end.
  repeat preserves_step HP.
Qed.

Lemma touchend_timer_frame P env e s :
  timer_only P -> P (final (checkEvent e s)) -> P (final (touchend env e s)).
Proof.
  intros HP H. unfold touchend. rewrite final_after_checkEvent.
  cbv beta.
  match goal with
  | |- P (final (?m ?s0)) => cut (preserves P m); [intros Hm; exact (Hm s0 H)|]
  end.
  repeat preserves_step HP.
Qed.

(** ** Closed forms of the timer paths *)

Lemma touchstart_accept env e s :
  foreign e = false ->
  touchstart env e s =
  {| result := Some tt; final := arm e (disarm s); effects := [PreventDefault] |}.
Proof.
  intros F. unfold touchstart, bind. rewrite (checkEvent_accept _ _ F).
  reflexivity.
Qed.

Lemma resolve_with_canvas env s :
  resolve env (with_canvas (resolve env s) s) = resolve env s.
Proof.
  unfold resolve. cbn. destruct (canvas s); [reflexivity|].
  destruct (getElementById env "canvas"); reflexivity.
Qed.

Lemma with_canvas_idem env s :
  with_canvas (resolve env (with_canvas (resolve env s) s))
    (with_canvas (resolve env s) s)
  = with_canvas (resolve env s) s.
Proof. rewrite resolve_with_canvas. reflexivity. Qed.

Lemma contextMenu_eq env e s :
  contextMenu env e s =
  {| result := Some tt;
     final := with_canvas (resolve env s)
                (with_contextMenuTimer None (with_mode Mode.None s));
     effects :=
       match resolve env s with
       | Some el => [ Dispatch el (construct mousedown (make_init e common));
                      Dispatch el (construct mouseup (make_init e common)) ]
       | None => []
       end |}.
Proof.
  unfold contextMenu, bind, modify. cbn.
  rewrite !dispatchEvent_eq. cbn.
  rewrite with_canvas_idem, resolve_with_canvas.
  change (resolve env (with_contextMenuTimer None (with_mode Mode.None s)))
    with (resolve env s).
  destruct (resolve env s); reflexivity.
Qed.

Lemma fire_eq env h s :
  fire env h s =
  match lookup_timer h s with
  | Some tm => contextMenu env (closure tm) (final (clearTimeout h s))
  | None => {| result := Some tt; final := s; effects := [] |}
  end.
Proof.
  unfold fire, bind, read. cbn.
  destruct (lookup_timer h s) as [tm|]; [|reflexivity].
  cbn. destruct (contextMenu env (closure tm) (final (clearTimeout h s)));
    reflexivity.
Qed.

(** ** The timer invariant *)

Lemma timer_only_timer_inv : timer_only timer_inv.
Proof. repeat apply conj; intros ? s H; exact H. Qed.

Lemma timer_inv_initial : timer_inv initial.
Proof. split; [intros t []|reflexivity]. Qed.

Lemma disarm_clears s :
  timer_inv s ->
  timers (disarm s) = [] /\ contextMenuTimer (disarm s) = None /\
  nextHandle (disarm s) = nextHandle s /\ mode (disarm s) = mode s /\
  prevDistance (disarm s) = prevDistance s /\ canvas (disarm s) = canvas s.
Proof.
  intros [_ H]. unfold disarm. destruct (contextMenuTimer s) as [h|] eqn:E.
  - destruct H as (d & e & Ht). cbn. rewrite Ht. cbn.
    rewrite Pos.eqb_refl. cbn. auto 6.
  - auto 6.
Qed.

Lemma timer_inv_disarm s : timer_inv s -> timer_inv (disarm s).
Proof.
  intros H. destruct (disarm_clears s H) as (Ht & Hc & _).
  split; [rewrite Ht; intros t []|rewrite Hc; exact Ht].
Qed.

Lemma timer_inv_checkEvent e s :
  timer_inv s -> timer_inv (final (checkEvent e s)).
Proof.
  intros H. destruct (foreign e) eqn:F.
  - rewrite (checkEvent_foreign _ _ F). exact H.
  - rewrite (checkEvent_accept _ _ F). apply timer_inv_disarm, H.
Qed.

Lemma timer_inv_arm e s :
  timers s = [] -> timer_inv (arm e s).
Proof.
  intros Ht. unfold arm, timer_inv. cbn. rewrite Ht. cbn. split.
  - intros t [<-|[]]. cbn. lia.
  - eauto.
Qed.

Lemma lookup_timer_inv h s tm :
  timer_inv s -> lookup_timer h s = Some tm ->
  contextMenuTimer s = Some h /\ timers s = [tm] /\ handle tm = h.
Proof.
  intros [_ H] L. unfold lookup_timer in L.
  destruct (contextMenuTimer s) as [h'|].
  - destruct H as (d & e & Ht). rewrite Ht in *. cbn in L.
    destruct (Pos.eqb_spec h' h) as [->|]; [|discriminate].
    injection L as <-. auto.
  - rewrite H in L. discriminate.
Qed.

Lemma timer_inv_step env n s :
  timer_inv s -> timer_inv (final (step env n s)).
Proof.
  intros H. destruct n as [e|e|e|h]; cbn [step].
  - destruct (foreign e) eqn:F.
    + change (touchstart env e s) with (step env (Touchstart e) s).
      rewrite step_rejected by exact F. exact H.
    + rewrite (touchstart_accept _ _ _ F). cbn [final].
      apply timer_inv_arm. apply disarm_clears, H.
  - apply touchmove_timer_frame;
      [apply timer_only_timer_inv | apply timer_inv_checkEvent, H].
  - apply touchend_timer_frame;
      [apply timer_only_timer_inv | apply timer_inv_checkEvent, H].
  - rewrite fire_eq. destruct (lookup_timer h s) as [tm|] eqn:L; [|exact H].
    destruct (lookup_timer_inv _ _ _ H L) as (_ & Ht & Hh).
    rewrite contextMenu_eq. cbn. rewrite Ht. cbn. rewrite Hh, Pos.eqb_refl.
    split; [intros t []|reflexivity].
Qed.

Lemma run_cons s env n tr :
  run s ((env, n) :: tr) =
  (fst (run (final (step env n s)) tr),
   effects (step env n s) ++ snd (run (final (step env n s)) tr)).
Proof. reflexivity. Qed.

Lemma run_app s tr1 tr2 :
  run s (tr1 ++ tr2) =
  (fst (run (fst (run s tr1)) tr2),
   snd (run s tr1) ++ snd (run (fst (run s tr1)) tr2)).
Proof.
  revert s. induction tr1 as [|[env n] tr1 IH]; intros s.
  - cbn. destruct (run s tr2); reflexivity.
  - cbn [app]. rewrite !run_cons, IH. cbn [fst snd].
    rewrite app_assoc. reflexivity.
Qed.

Lemma timer_inv_run tr s : timer_inv s -> timer_inv (fst (run s tr)).
Proof.
  revert s. induction tr as [|[env n] tr IH]; intros s H; [exact H|].
  rewrite run_cons. cbn [fst]. apply IH, timer_inv_step, H.
Qed.

Lemma reachable_timer_inv s : reachable s -> timer_inv s.
Proof. intros [tr ->]. apply timer_inv_run, timer_inv_initial. Qed.

Lemma run_rejected s tr :
  Forall (fun en => rejected (snd en) = true) tr -> run s tr = (s, []).
Proof.
  induction 1 as [|[env n] tr Hn _ IH]; [reflexivity|].
  rewrite run_cons, (step_rejected _ _ _ Hn). cbn [final effects].
  rewrite IH. reflexivity.
Qed.

(** ** Long press and quick tap *)


Lemma coordinate_of_construct e ty ei k f :
  In (k, f) coordinate_fields -> no_coordinate_override ei ->
  num_field k (construct ty (make_init e ei))
  = Some (spec_coordinate f (touches e)).
Proof.
  intros Hk Hei. apply (construct_follows_rules e ty ei Hei), Hk.
Qed.

Lemma no_override_common : no_coordinate_override common.
Proof. no_override. Qed.



(** ** Stepping through a listener body by rewriting *)

Lemma after_after {A} l1 l2 (o : Outcome A) :
  after l1 (after l2 o) = after (l1 ++ l2) o.
Proof. unfold after. cbn. rewrite app_assoc. reflexivity. Qed.

Lemma bind_ret {A B} (a : A) (k : A -> M B) s : bind (ret a) k s = k a s.
Proof. unfold bind, ret. cbn. destruct (k a s); reflexivity. Qed.

Lemma bind_read {A B} (f : State -> A) (k : A -> M B) s :
  bind (read f) k s = k (f s) s.
Proof. unfold bind, read. cbn. destruct (k (f s) s); reflexivity. Qed.

Lemma bind_modify {B} f (k : unit -> M B) s :
  bind (modify f) k s = k tt (f s).
Proof. unfold bind, modify. cbn. destruct (k tt (f s)); reflexivity. Qed.

Lemma bind_throw {A B} (k : A -> M B) s :
  bind throw k s = {| result := None; final := s; effects := [] |}.
Proof. reflexivity. Qed.

Lemma bind_dispatchEvent {B} env e ty ei (k : unit -> M B) s :
  bind (dispatchEvent env e ty ei) k s =
  after (dispatched env s e ty ei) (k tt (with_canvas (resolve env s) s)).
Proof. unfold bind. rewrite dispatchEvent_eq. reflexivity. Qed.

Lemma run_dispatchEvent env e ty ei s :
  dispatchEvent env e ty ei s =
  after (dispatched env s e ty ei)
    {| result := Some tt; final := with_canvas (resolve env s) s; effects := [] |}.
Proof.
  rewrite dispatchEvent_eq. unfold after, dispatched. cbn.
  rewrite app_nil_r. reflexivity.
Qed.

Lemma bind_checkEvent_accept {B} e (k : bool -> M B) s :
  foreign e = false ->
  bind (checkEvent e) k s = after [PreventDefault] (k true (disarm s)).
Proof. intros F. unfold bind. rewrite (checkEvent_accept _ _ F). reflexivity. Qed.

Lemma mode_disarm s : mode (disarm s) = mode s.
Proof. unfold disarm. destruct (contextMenuTimer s); reflexivity. Qed.

Lemma prevDistance_disarm s : prevDistance (disarm s) = prevDistance s.
Proof. unfold disarm. destruct (contextMenuTimer s); reflexivity. Qed.

Lemma canvas_disarm s : canvas (disarm s) = canvas s.
Proof. unfold disarm. destruct (contextMenuTimer s); reflexivity. Qed.

Lemma contextMenuTimer_disarm s : contextMenuTimer (disarm s) = None.
Proof. unfold disarm. destruct (contextMenuTimer s) eqn:E; [reflexivity|exact E]. Qed.

Lemma resolve_disarm env s : resolve env (disarm s) = resolve env s.
Proof. unfold resolve. rewrite canvas_disarm. reflexivity. Qed.

Lemma dispatched_same_canvas env s s' e ty ei :
  resolve env s' = resolve env s ->
  dispatched env s' e ty ei = dispatched env s e ty ei.
Proof. unfold dispatched. intros ->. reflexivity. Qed.

Ltac listener_rewrite :=
  repeat first
    [ rewrite bind_read
    | rewrite bind_modify
    | rewrite bind_ret
    | rewrite bind_throw
    | rewrite bind_dispatchEvent
    | rewrite run_dispatchEvent
    | rewrite after_after ];
  cbn [app].

Lemma touchend_PreRotate env e s :
  foreign e = false -> mode s = Mode.PreRotate ->
  touchend env e s =
  {| result := Some tt;
     final := with_canvas (resolve env s) (with_mode Mode.None (disarm s));
     effects :=
       PreventDefault ::
       match resolve env s with
       | Some el => [ Dispatch el (construct mousemove (make_init e []));
                      Dispatch el (construct mousedown (make_init e []));
                      Dispatch el (construct mouseup (make_init e [])) ]
       | None => []
       end |}.
Proof.
  intros F Hm. unfold touchend.
  rewrite (bind_checkEvent_accept _ _ _ F). cbn [negb].
  rewrite bind_read, mode_disarm, Hm.
  listener_rewrite.
  unfold after, dispatched. cbn [result final effects].
  rewrite !with_canvas_idem, !resolve_with_canvas.
  change (resolve env (with_mode Mode.None (disarm s)))
    with (resolve env (disarm s)).
  rewrite resolve_disarm.
  destruct (resolve env s); reflexivity.
Qed.

Lemma default_button e ty :
  let ev := construct ty (make_init e []) in
  get "button" (ev_init ev) = None /\ get "buttons" (ev_init ev) = None /\
  button ev = 0 /\ buttons ev = 0.
Proof.
  unfold button, buttons, num_field, make_init. cbn [construct ev_init].
  rewrite !get_app. cbn.
  destruct (touches e) as [|t0 [|t1 r]]; cbn; auto.
Qed.

(** C5. An accepted touch-start with one touch point, followed by an
    accepted touch-end with nothing but rejected notifications in between
    (no move, no timer expiry), dispatches exactly three events, in order
    [mousemove], [mousedown], [mouseup]; none of them is given a button, so
    each carries the default button 0 (primary) and buttons 0; the mode is
    back to [Mode.None] and the timer the touch-start armed is disarmed.
    (The canvas element has to be known or findable at the touch-end.) *)
Theorem C5_quick_tap
    (s : State) (env0 env1 : Env) (e0 e1 : TouchEvent) (t : Touch)
    (between : list (Env * Notification)) (el : Element) :
  foreign e0 = false ->
  touches e0 = [t] ->
  foreign e1 = false ->
  Forall (fun en => rejected (snd en) = true) between ->
  resolve env1 s = Some el ->
  let r := run s ((env0, Touchstart e0) :: between ++ [(env1, Touchend e1)]) in
  (exists move down up,
      events (snd r) = [move; down; up] /\
      ev_type move = mousemove /\ ev_type down = mousedown /\
      ev_type up = mouseup /\
      forall ev, In ev [move; down; up] ->
        get "button" (ev_init ev) = None /\ button ev = 0 /\ buttons ev = 0) /\
  mode (fst r) = Mode.None /\
  contextMenuTimer (fst r) = None /\
  lookup_timer (nextHandle (disarm s)) (fst r) = None.
Proof.
  intros F0 Ht F1 Hb Hc r. subst r.
  rewrite run_cons, run_app, (run_rejected _ _ Hb). cbn [fst snd app step].
  rewrite !(touchstart_accept _ _ _ F0). cbn [final effects].
  rewrite run_cons. cbn [run step fst snd].
  assert (Hm : mode (arm e0 (disarm s)) = Mode.PreRotate).
  { unfold arm. rewrite Ht. reflexivity. }
  rewrite (touchend_PreRotate _ _ _ F1 Hm). cbn [final effects].
  assert (R : resolve env1 (arm e0 (disarm s)) = Some el).
  { unfold resolve in *. cbn. rewrite canvas_disarm. exact Hc. }
  rewrite R. repeat apply conj.
  - eexists _, _, _. repeat apply conj; try reflexivity.
    intros ev Hev. cbn in Hev.
    destruct Hev as [<-|[<-|[<-|[]]]];
      match goal with
      | |- context [construct ?ty (make_init ?e [])] =>
          destruct (default_button e ty) as (H1 & _ & H3 & H4)
      end; auto.
  - reflexivity.
  - reflexivity.
  - unfold lookup_timer. cbn. apply find_filter_out.
Qed.

Lemma C5_quick_tap_witness :
  let r := run initial
             [ (demo_env, Touchstart (on_canvas [touch_at 100 100]));
               (demo_env, Touchmove (on_toolbar [touch_at 3 3]));
               (demo_env, Touchend (on_canvas [])) ] in
  (exists move down up,
      events (snd r) = [move; down; up] /\
      ev_type move = mousemove /\ ev_type down = mousedown /\
      ev_type up = mouseup /\
      forall ev, In ev [move; down; up] ->
        get "button" (ev_init ev) = None /\ button ev = 0 /\ buttons ev = 0) /\
  mode (fst r) = Mode.None.
Proof.
  intros r.
  destruct (C5_quick_tap initial demo_env demo_env
              (on_canvas [touch_at 100 100]) (on_canvas [])
              (touch_at 100 100)
              [(demo_env, Touchmove (on_toolbar [touch_at 3 3]))] 7%nat)
    as (H & Hm & _).
  - reflexivity.
  - reflexivity.
  - reflexivity.
  - repeat constructor.
  - reflexivity.
  - split; [exact H | exact Hm].
Defined.

(** ** Closed forms of [touchmove] *)

Lemma dispatched_disarm env s e ty ei :
  dispatched env (disarm s) e ty ei = dispatched env s e ty ei.
Proof. apply dispatched_same_canvas, resolve_disarm. Qed.

Lemma dispatched_with_canvas env s e ty ei :
  dispatched env (with_canvas (resolve env s) s) e ty ei
  = dispatched env s e ty ei.
Proof. apply dispatched_same_canvas, resolve_with_canvas. Qed.

Ltac listener_normalize :=
  unfold after, modify, throw; cbn [result final effects];
  rewrite ?dispatched_with_canvas, ?dispatched_disarm, ?with_canvas_idem,
    ?resolve_disarm, ?app_nil_r.

Lemma touchmove_PreZoomPan env e s :
  foreign e = false -> mode s = Mode.PreZoomPan ->
  touchmove env e s =
  {| result := Some tt;
     final := with_canvas (resolve env s) (with_mode Mode.ZoomPan (disarm s));
     effects :=
       PreventDefault ::
       dispatched env s e mousedown [("button", VNum 1); ("buttons", VNum 4)] |}.
Proof.
  intros F Hm. unfold touchmove.
  rewrite (bind_checkEvent_accept _ _ _ F). cbn [negb].
  rewrite bind_read, mode_disarm, Hm.
  listener_rewrite.
  change (dispatched env (with_mode Mode.ZoomPan (disarm s)))
    with (dispatched env (disarm s)).
  change (resolve env (with_mode Mode.ZoomPan (disarm s)))
    with (resolve env (disarm s)).
  listener_normalize. reflexivity.
Qed.

Lemma touchmove_ZoomPan env e s t0 t1 rest :
  foreign e = false -> mode s = Mode.ZoomPan -> touches e = t0 :: t1 :: rest ->
  touchmove env e s =
  {| result := Some tt;
     final := with_prevDistance (Some (separation env t0 t1))
                (with_canvas (resolve env s) (disarm s));
     effects :=
       PreventDefault ::
       dispatched env s e mousemove [("button", VNum 2)] ++
       match prevDistance s with
       | Some prev =>
           if truthy prev
           then dispatched env s e mousewheel
                  (wheel_init env (separation env t0 t1) prev)
           else []
       | None => []
       end |}.
Proof.
  intros F Hm Ht. unfold touchmove.
  rewrite (bind_checkEvent_accept _ _ _ F). cbn [negb].
  rewrite bind_read, mode_disarm, Hm, Ht.
  rewrite bind_dispatchEvent, bind_read.
  cbn [prevDistance with_canvas]. rewrite prevDistance_disarm.
  fold (separation env t0 t1).
  destruct (prevDistance s) as [prev|]; [destruct (truthy prev)|];
    listener_rewrite; unfold wheel_init; listener_normalize; reflexivity.
Qed.

Lemma touchmove_ZoomPan_short env e s :
  foreign e = false -> mode s = Mode.ZoomPan ->
  (List.length (touches e) < 2)%nat ->
  touchmove env e s =
  {| result := None;
     final := with_canvas (resolve env s) (disarm s);
     effects :=
       PreventDefault :: dispatched env s e mousemove [("button", VNum 2)] |}.
Proof.
  intros F Hm Ht. unfold touchmove.
  rewrite (bind_checkEvent_accept _ _ _ F). cbn [negb].
  rewrite bind_read, mode_disarm, Hm.
  rewrite bind_dispatchEvent.
  destruct (touches e) as [|t0 [|t1 r]]; cbn in Ht; try lia;
    listener_normalize; reflexivity.
Qed.

Lemma touchmove_None env e s :
  foreign e = false -> mode s = Mode.None ->
  touchmove env e s =
  {| result := Some tt; final := disarm s; effects := [PreventDefault] |}.
Proof.
  intros F Hm. unfold touchmove.
  rewrite (bind_checkEvent_accept _ _ _ F). cbn [negb].
  rewrite bind_read, mode_disarm, Hm. reflexivity.
Qed.

Lemma touchmove_PreRotate env e s :
  foreign e = false -> mode s = Mode.PreRotate ->
  touchmove env e s =
  {| result := Some tt;
     final := with_canvas (resolve env s) (with_mode Mode.Rotate (disarm s));
     effects := PreventDefault :: dispatched env s e mousedown common |}.
Proof.
  intros F Hm. unfold touchmove.
  rewrite (bind_checkEvent_accept _ _ _ F). cbn [negb].
  rewrite bind_read, mode_disarm, Hm.
  listener_rewrite.
  change (dispatched env (with_mode Mode.Rotate (disarm s)))
    with (dispatched env (disarm s)).
  change (resolve env (with_mode Mode.Rotate (disarm s)))
    with (resolve env (disarm s)).
  listener_normalize. reflexivity.
Qed.

Lemma touchmove_Rotate env e s :
  foreign e = false -> mode s = Mode.Rotate ->
  touchmove env e s =
  {| result := Some tt;
     final := with_canvas (resolve env s) (disarm s);
     effects := PreventDefault :: dispatched env s e mousemove common |}.
Proof.
  intros F Hm. unfold touchmove.
  rewrite (bind_checkEvent_accept _ _ _ F). cbn [negb].
  rewrite bind_read, mode_disarm, Hm.
  listener_rewrite. listener_normalize. reflexivity.
Qed.

(** ** Closed forms of [touchend] *)

Lemma touchend_ZoomPan env e s :
  foreign e = false -> mode s = Mode.ZoomPan ->
  touchend env e s =
  {| result := Some tt;
     final := with_canvas (resolve env s)
                (with_prevDistance None (with_mode Mode.None (disarm s)));
     effects :=
       PreventDefault ::
       dispatched env s e mouseup [("button", VNum 1); ("buttons", VNum 4)] |}.
Proof.
  intros F Hm. unfold touchend.
  rewrite (bind_checkEvent_accept _ _ _ F). cbn [negb].
  rewrite bind_read, mode_disarm, Hm.
  listener_rewrite.
  change (dispatched env (with_prevDistance None (with_mode Mode.None (disarm s))))
    with (dispatched env (disarm s)).
  change (resolve env (with_prevDistance None (with_mode Mode.None (disarm s))))
    with (resolve env (disarm s)).
  listener_normalize. reflexivity.
Qed.

Lemma touchend_Rotate env e s :
  foreign e = false -> mode s = Mode.Rotate ->
  touchend env e s =
  {| result := Some tt;
     final := with_canvas (resolve env s) (with_mode Mode.None (disarm s));
     effects := PreventDefault :: dispatched env s e mouseup common |}.
Proof.
  intros F Hm. unfold touchend.
  rewrite (bind_checkEvent_accept _ _ _ F). cbn [negb].
  rewrite bind_read, mode_disarm, Hm.
  listener_rewrite.
  change (dispatched env (with_mode Mode.None (disarm s)))
    with (dispatched env (disarm s)).
  change (resolve env (with_mode Mode.None (disarm s)))
    with (resolve env (disarm s)).
  listener_normalize. reflexivity.
Qed.

(** No case of the [switch] in [touchend] matches the two remaining modes. *)
Lemma touchend_unhandled env e s :
  foreign e = false -> mode s = Mode.PreZoomPan \/ mode s = Mode.None ->
  touchend env e s =
  {| result := Some tt; final := disarm s; effects := [PreventDefault] |}.
Proof.
  intros F Hm. unfold touchend.
  rewrite (bind_checkEvent_accept _ _ _ F). cbn [negb].
  rewrite bind_read, mode_disarm. destruct Hm as [-> | ->]; reflexivity.
Qed.

(** ** Reading the events of a closed form *)

Lemma events_app l1 l2 : events (l1 ++ l2) = events l1 ++ events l2.
Proof.
  induction l1 as [|[|el ev] l1 IH]; cbn; [reflexivity | exact IH |].
  rewrite IH. reflexivity.
Qed.

Lemma events_dispatched env s e ty ei :
  events (dispatched env s e ty ei) =
  match resolve env s with
  | Some _ => [construct ty (make_init e ei)]
  | None => []
  end.
Proof. unfold dispatched. destruct (resolve env s); reflexivity. Qed.

Lemma in_events_dispatched env s e ty ei ev :
  In ev (events (dispatched env s e ty ei)) ->
  ev = construct ty (make_init e ei).
Proof.
  rewrite events_dispatched. destruct (resolve env s); cbn; [|contradiction].
  intros [<-|[]]. reflexivity.
Qed.

Lemma deltaY_of_wheel e env distance prev :
  deltaY (construct mousewheel (make_init e (wheel_init env distance prev)))
  = Some ((distance - prev) / screen_width env * 10000).
Proof.
  unfold deltaY, num_field, make_init, wheel_init. cbn [construct ev_init].
  rewrite !get_app. reflexivity.
Qed.

(** ** Pinch memory *)

(** Where [prevDistance] can change: only an accepted move in
    [Mode.ZoomPan] with two touch points writes a distance. *)
Lemma prevDistance_step env n s :
  prevDistance (final (step env n s)) = prevDistance s \/
  prevDistance (final (step env n s)) = None \/
  exists e t0 t1 rest,
    n = Touchmove e /\ foreign e = false /\ mode s = Mode.ZoomPan /\
    touches e = t0 :: t1 :: rest /\
    prevDistance (final (step env n s)) = Some (separation env t0 t1).
Proof.
  destruct n as [e|e|e|h]; cbn [step].
  - left. destruct (foreign e) eqn:F.
    + change (touchstart env e s) with (step env (Touchstart e) s).
      rewrite step_rejected by exact F. reflexivity.
    + rewrite (touchstart_accept _ _ _ F). cbn. apply prevDistance_disarm.
  - destruct (foreign e) eqn:F.
    { left. change (touchmove env e s) with (step env (Touchmove e) s).
      rewrite step_rejected by exact F. reflexivity. }
    destruct (mode s) eqn:Hm.
    + left. rewrite (touchmove_None _ _ _ F Hm). apply prevDistance_disarm.
    + left. rewrite (touchmove_PreRotate _ _ _ F Hm). apply prevDistance_disarm.
    + left. rewrite (touchmove_PreZoomPan _ _ _ F Hm). apply prevDistance_disarm.
    + left. rewrite (touchmove_Rotate _ _ _ F Hm). apply prevDistance_disarm.
    + destruct (touches e) as [|t0 [|t1 rest]] eqn:Ht.
      * left. rewrite touchmove_ZoomPan_short; auto.
        -- apply prevDistance_disarm.
        -- rewrite Ht. cbn. lia.
      * left. rewrite touchmove_ZoomPan_short; auto.
        -- apply prevDistance_disarm.
        -- rewrite Ht. cbn. lia.
      * right. right. exists e, t0, t1, rest.
        rewrite (touchmove_ZoomPan _ _ _ _ _ _ F Hm Ht). auto.
  - destruct (foreign e) eqn:F.
    { left. change (touchend env e s) with (step env (Touchend e) s).
      rewrite step_rejected by exact F. reflexivity. }
    destruct (mode s) eqn:Hm.
    + left. rewrite touchend_unhandled; auto. apply prevDistance_disarm.
    + left. rewrite (touchend_PreRotate _ _ _ F Hm). apply prevDistance_disarm.
    + left. rewrite touchend_unhandled; auto. apply prevDistance_disarm.
    + left. rewrite (touchend_Rotate _ _ _ F Hm). apply prevDistance_disarm.
    + right. left. rewrite (touchend_ZoomPan _ _ _ F Hm). reflexivity.
  - left. rewrite fire_eq. destruct (lookup_timer h s); [|reflexivity].
    rewrite contextMenu_eq. reflexivity.
Qed.

Lemma prevDistance_provenance tr p :
  prevDistance (fst (run initial tr)) = Some p -> pinch_move_recorded tr p.
Proof.
  induction tr as [|[env n] tr IH] using rev_ind; [discriminate|].
  rewrite run_app, run_cons. cbn [fst run].
  destruct (prevDistance_step env n (fst (run initial tr)))
    as [E | [E | (e & t0 & t1 & rest & -> & F & Hm & Ht & E)]];
    rewrite E; intros H.
  - destruct (IH H) as (tr1 & env' & e & t0 & t1 & rest & tr2 & -> & Hrest).
    exists tr1, env', e, t0, t1, rest, (tr2 ++ [(env, n)]).
    split; [|exact Hrest]. rewrite <- app_assoc. reflexivity.
  - discriminate.
  - injection H as <-.
    exists tr, env, e, t0, t1, rest, []. auto.
Qed.

Lemma mode_arm e s :
  mode (arm e s) =
  if Nat.leb 2 (List.length (touches e)) then Mode.PreZoomPan else Mode.PreRotate.
Proof. reflexivity. Qed.

Lemma events_cons_preventDefault l : events (PreventDefault :: l) = events l.
Proof. reflexivity. Qed.

(** A two-finger gesture that starts with nothing stored dispatches no
    wheel event up to and including its first move in [Mode.ZoomPan]. *)
Lemma fresh_pinch_no_wheel env0 env1 env2 s e0 e1 e2 :
  prevDistance s = None ->
  foreign e0 = false -> foreign e1 = false -> foreign e2 = false ->
  (2 <= List.length (touches e0))%nat ->
  let r := run s [ (env0, Touchstart e0); (env1, Touchmove e1);
                   (env2, Touchmove e2) ] in
  mode (fst r) = Mode.ZoomPan /\
  forall ev, In ev (events (snd r)) -> ev_type ev <> mousewheel.
Proof.
  intros Hp F0 F1 F2 Hl r. subst r.
  rewrite !run_cons. cbn [run fst snd step].
  rewrite !(touchstart_accept _ _ _ F0). cbn [final effects].
  assert (Hm : mode (arm e0 (disarm s)) = Mode.PreZoomPan).
  { rewrite mode_arm. apply Nat.leb_le in Hl. rewrite Hl. reflexivity. }
  rewrite !(touchmove_PreZoomPan _ _ _ F1 Hm). cbn [final effects].
  set (s2 := with_canvas _ _).
  assert (Hm2 : mode s2 = Mode.ZoomPan) by reflexivity.
  assert (Hp2 : prevDistance s2 = None).
  { unfold s2. cbn. rewrite prevDistance_disarm. exact Hp. }
  destruct (touches e2) as [|t0 [|t1 rest]] eqn:Ht.
  1,2: rewrite !(touchmove_ZoomPan_short _ _ _ F2 Hm2) by (rewrite Ht; cbn; lia);
    cbn [final effects]; split; [reflexivity|];
    intros ev Hev; cbn [app events] in Hev;
    rewrite events_app, app_nil_r in Hev; apply in_app_or in Hev;
    destruct Hev as [Hev|Hev]; apply in_events_dispatched in Hev;
    subst ev; discriminate.
  rewrite !(touchmove_ZoomPan _ _ _ _ _ _ F2 Hm2 Ht). cbn [final effects].
  rewrite Hp2. split; [reflexivity|].
  intros ev Hev. cbn [app events] in Hev.
  rewrite !events_app, !app_nil_r in Hev. apply in_app_or in Hev.
  destruct Hev as [Hev|Hev]; apply in_events_dispatched in Hev;
    subst ev; discriminate.
Qed.

(** X16. While zooming ([Mode.ZoomPan]) an accepted move with two touch
    points computes the separation as [Math.hypot] of the differences of the
    two points' screen coordinates and stores it as the new previous
    distance.  A wheel event is dispatched on that move only when a previous
    distance is stored (and is truthy), and its [deltaY] is then
    (distance - previous) / screen width * 10000.  With no previous distance
    stored, no wheel event is dispatched; the move that enters
    [Mode.ZoomPan] dispatches a [mousedown] only and stores nothing; so a
    two-finger gesture that starts with nothing stored dispatches no wheel
    event up to and including its first move in [Mode.ZoomPan].  In every run
    from the initial state, a stored previous distance is the separation an
    earlier move in [Mode.ZoomPan] computed. *)
Theorem pinch_zoom_rule :
  (forall env s e t0 t1 rest,
      foreign e = false -> mode s = Mode.ZoomPan ->
      touches e = t0 :: t1 :: rest ->
      let distance :=
        Math_hypot env (screenX t0 - screenX t1) (screenY t0 - screenY t1) in
      let o := touchmove env e s in
      prevDistance (final o) = Some distance /\
      (forall ev, In ev (events (effects o)) -> ev_type ev = mousewheel ->
         exists prev, prevDistance s = Some prev /\ truthy prev = true /\
           deltaY ev = Some ((distance - prev) / screen_width env * 10000)) /\
      (forall prev el,
         prevDistance s = Some prev -> truthy prev = true ->
         resolve env s = Some el ->
         exists mv wh, events (effects o) = [mv; wh] /\
           ev_type mv = mousemove /\ ev_type wh = mousewheel /\
           deltaY wh = Some ((distance - prev) / screen_width env * 10000)) /\
      (prevDistance s = None ->
         forall ev, In ev (events (effects o)) -> ev_type ev <> mousewheel))
  /\
  (forall env s e,
      foreign e = false -> mode s = Mode.PreZoomPan ->
      let o := touchmove env e s in
      mode (final o) = Mode.ZoomPan /\
      prevDistance (final o) = prevDistance s /\
      forall ev, In ev (events (effects o)) -> ev_type ev = mousedown)
  /\
  (forall env0 env1 env2 s e0 e1 e2,
      prevDistance s = None ->
      foreign e0 = false -> foreign e1 = false -> foreign e2 = false ->
      (2 <= List.length (touches e0))%nat ->
      let r := run s [ (env0, Touchstart e0); (env1, Touchmove e1);
                       (env2, Touchmove e2) ] in
      mode (fst r) = Mode.ZoomPan /\
      forall ev, In ev (events (snd r)) -> ev_type ev <> mousewheel)
  /\
  (forall tr p,
      prevDistance (fst (run initial tr)) = Some p ->
      pinch_move_recorded tr p).
Proof.
  repeat apply conj.
  - intros env s e t0 t1 rest F Hm Ht distance o. subst o.
    rewrite (touchmove_ZoomPan _ _ _ _ _ _ F Hm Ht).
    cbn [final effects]. fold (separation env t0 t1) in distance. subst distance.
    rewrite events_cons_preventDefault, events_app.
    repeat apply conj.
    + reflexivity.
    + intros ev Hev Hty. apply in_app_or in Hev. destruct Hev as [Hev|Hev].
      * apply in_events_dispatched in Hev. subst ev. discriminate.
      * destruct (prevDistance s) as [prev|]; [|destruct Hev].
        destruct (truthy prev) eqn:T; [|destruct Hev].
        apply in_events_dispatched in Hev. subst ev.
        exists prev.
        repeat apply conj; [reflexivity | exact T | apply deltaY_of_wheel].
    + intros prev el Hp T R. rewrite Hp, T, !events_dispatched, R.
      eexists _, _. repeat apply conj; try reflexivity.
      apply deltaY_of_wheel.
    + intros Hp ev Hev. rewrite Hp, app_nil_r in Hev.
      apply in_events_dispatched in Hev. subst ev. discriminate.
  - intros env s e F Hm o. subst o. rewrite (touchmove_PreZoomPan _ _ _ F Hm).
    cbn [final effects]. repeat apply conj.
    + reflexivity.
    + apply prevDistance_disarm.
    + intros ev Hev. rewrite events_cons_preventDefault in Hev.
      apply in_events_dispatched in Hev. subst ev. reflexivity.
  - exact fresh_pinch_no_wheel.
  - apply prevDistance_provenance.
Qed.

Lemma pinch_zoom_rule_witness :
  prevDistance pinching_100 = Some 100 /\
  exists mv wh,
    events (effects (touchmove demo_env narrow pinching_100)) = [mv; wh] /\
    ev_type mv = mousemove /\ ev_type wh = mousewheel /\
    deltaY wh = Some ((80 - 100) / 1920 * 10000).
Proof.
  split; [reflexivity|].
  destruct pinch_zoom_rule as (A & _).
  destruct (A demo_env pinching_100 narrow (touch_at 0 0) (touch_at 80 0) [])
    as (_ & _ & H & _); try reflexivity.
  exact (H 100 7%nat eq_refl eq_refl eq_refl).
Defined.

(** C3. The script run on a fresh two-finger gesture that begins in
    [Mode.None] after an interrupted pinch: the touch-start and the move
    that enters [Mode.ZoomPan] dispatch a [mousedown] only, and the very
    next move, the first one handled in [Mode.ZoomPan], dispatches a
    [mousemove] and a wheel event, whose [deltaY] is computed against the
    100 the earlier pinch left behind. *)
Theorem C3_wheel_on_first_pinch_move :
  let started := final (step demo_env (Touchstart narrow) stale_idle) in
  let entering := step demo_env (Touchmove narrow) started in
  let first_pinch_move := step demo_env (Touchmove narrow) (final entering) in
  (mode stale_idle = Mode.None /\ contextMenuTimer stale_idle = None /\
   timers stale_idle = []) /\
  (mode started = Mode.PreZoomPan /\
   map ev_type (events (effects entering)) = [mousedown] /\
   mode (final entering) = Mode.ZoomPan) /\
  (exists mv wh,
      events (effects first_pinch_move) = [mv; wh] /\
      ev_type mv = mousemove /\ ev_type wh = mousewheel /\
      deltaY wh = Some ((80 - 100) / 1920 * 10000)).
Proof.
  cbv zeta. repeat apply conj; try (vm_compute; reflexivity).
  eexists _, _. repeat apply conj; vm_compute; reflexivity.
Qed.

(** C10. While zooming, if the stored previous distance is exactly 0, an
    accepted two-point move dispatches its [mousemove] and no wheel event,
    and stores the new separation: the move does exactly what it would have
    done with nothing stored. *)
Theorem C10_zero_distance_is_unset
    (env : Env) (s : State) (e : TouchEvent) (t0 t1 : Touch) (rest : list Touch) :
  foreign e = false -> mode s = Mode.ZoomPan ->
  touches e = t0 :: t1 :: rest ->
  prevDistance s = Some 0 ->
  let o := touchmove env e s in
  (forall ev, In ev (events (effects o)) -> ev_type ev = mousemove) /\
  (forall el, resolve env s = Some el -> exists mv, events (effects o) = [mv]) /\
  prevDistance (final o)
    = Some (Math_hypot env (screenX t0 - screenX t1) (screenY t0 - screenY t1)) /\
  o = touchmove env e (with_prevDistance None s).
Proof.
  intros F Hm Ht Hp o. subst o.
  rewrite (touchmove_ZoomPan _ _ _ _ _ _ F Hm Ht).
  rewrite (touchmove_ZoomPan env e (with_prevDistance None s) t0 t1 rest F Hm Ht).
  rewrite Hp. cbn [final effects prevDistance with_prevDistance].
  change (truthy 0) with false. cbv iota.
  rewrite events_cons_preventDefault, !app_nil_r.
  repeat apply conj.
  - intros ev Hev. apply in_events_dispatched in Hev. subst ev. reflexivity.
  - intros el R. rewrite events_dispatched, R. eauto.
  - reflexivity.
  - unfold disarm, dispatched, resolve. cbn [contextMenuTimer with_prevDistance].
    destruct (contextMenuTimer s); cbn; reflexivity.
Qed.

Lemma C10_zero_distance_is_unset_witness :
  prevDistance pinching_0 = Some 0 /\
  (exists mv, events (effects (touchmove demo_env narrow pinching_0)) = [mv]) /\
  prevDistance (final (touchmove demo_env narrow pinching_0)) = Some 80.
Proof.
  split; [reflexivity|].
  destruct (C10_zero_distance_is_unset demo_env pinching_0 narrow
              (touch_at 0 0) (touch_at 80 0) [])
    as (_ & H & Hp & _); try reflexivity.
  split; [apply (H 7%nat); reflexivity | exact Hp].
Defined.

(** ** The two-finger scenario of the specification *)

(** The specification's scenario run on the script: the touch-start with
    points at (0,0) and (100,0), then the single move to (0,0) and (80,0).
    That move dispatches neither a [mousemove] nor a wheel event. *)
Lemma C2_single_move_counterexample :
  let started := final (touchstart demo_env wide initial) in
  let out := events (effects (touchmove demo_env narrow started)) in
  ~ (exists down mv wh delta,
        In down out /\ ev_type down = mousedown /\
        In mv out /\ ev_type mv = mousemove /\
        In wh out /\ ev_type wh = mousewheel /\
        deltaY wh = Some delta /\ (delta <? 0)%float = true).
Proof.
  cbv zeta. intros (down & mv & wh & delta & _ & _ & Hmv & Tmv & _).
  vm_compute in Hmv. destruct Hmv as [<-|[]]. discriminate.
Qed.

(** C2. The scenario as the script runs it.  After an accepted touch-start
    with points at (0,0) and (100,0), the one move to (0,0) and (80,0)
    dispatches exactly one event,
    a [mousedown] with button 1 and buttons 4 at the mean point (40,0); it
    dispatches no [mousemove] and no wheel event, and stores no distance.
    Carrying on, a move that sees the fingers 100 apart and then a move that
    sees them 80 apart make the latter dispatch a [mousemove] and a wheel
    event whose [deltaY] is (80 - 100) / screen width * 10000, which at a
    screen width of 1920 is negative. *)
Theorem C2_pinch_scenario
    (env0 env1 env2 env3 : Env) (s : State) (el : Element) :
  resolve env1 s = Some el ->
  Math_hypot env2 (-100) 0 = 100 ->
  Math_hypot env3 (-80) 0 = 80 ->
  let started := final (touchstart env0 wide s) in
  let first := touchmove env1 narrow started in
  let second := touchmove env2 wide (final first) in
  let third := touchmove env3 narrow (final second) in
  (exists down,
      events (effects first) = [down] /\
      ev_type down = mousedown /\ button down = 1 /\ buttons down = 4 /\
      num_field "screenX" down = Some 40 /\ num_field "screenY" down = Some 0) /\
  mode (final first) = Mode.ZoomPan /\
  prevDistance (final first) = prevDistance s /\
  (prevDistance s = None ->
   exists mv, events (effects second) = [mv] /\ ev_type mv = mousemove) /\
  prevDistance (final second) = Some 100 /\
  (exists mv wh,
      events (effects third) = [mv; wh] /\
      ev_type mv = mousemove /\ ev_type wh = mousewheel /\
      deltaY wh = Some ((80 - 100) / screen_width env3 * 10000)) /\
  ((80 - 100) / 1920 * 10000 <? 0)%float = true.
Proof.
  intros R H100 H80 started first second third.
  assert (F1 : foreign wide = false) by reflexivity.
  assert (F2 : foreign narrow = false) by reflexivity.
  assert (Hs : started = arm wide (disarm s)).
  { unfold started. rewrite (touchstart_accept _ _ _ F1). reflexivity. }
  assert (Hm0 : mode started = Mode.PreZoomPan) by (rewrite Hs; reflexivity).
  assert (R0 : resolve env1 started = Some el).
  { rewrite Hs. unfold resolve in *. cbn. rewrite canvas_disarm. exact R. }
  assert (E1 : first =
    {| result := Some tt;
       final := with_canvas (Some el) (with_mode Mode.ZoomPan (disarm started));
       effects := [PreventDefault;
                   Dispatch el (construct mousedown
                     (make_init narrow [("button", VNum 1); ("buttons", VNum 4)]))]
    |}).
  { unfold first. rewrite (touchmove_PreZoomPan _ _ _ F2 Hm0).
    unfold dispatched. rewrite R0. reflexivity. }
  assert (Hm1 : mode (final first) = Mode.ZoomPan) by (rewrite E1; reflexivity).
  assert (Hp1 : prevDistance (final first) = prevDistance s).
  { rewrite E1. cbn. rewrite prevDistance_disarm, Hs. cbn.
    apply prevDistance_disarm. }
  assert (Rf : forall env, resolve env (final first) = Some el)
    by (intros env; rewrite E1; reflexivity).
  assert (E2 : second =
    {| result := Some tt;
       final := with_prevDistance (Some 100)
                  (with_canvas (resolve env2 (final first)) (disarm (final first)));
       effects :=
         PreventDefault ::
         dispatched env2 (final first) wide mousemove [("button", VNum 2)] ++
         match prevDistance (final first) with
         | Some prev =>
             if truthy prev
             then dispatched env2 (final first) wide mousewheel
                    (wheel_init env2 100 prev)
             else []
         | None => []
         end |}).
  { unfold second.
    rewrite (touchmove_ZoomPan env2 wide (final first) (touch_at 0 0)
               (touch_at 100 0) [] F1 Hm1 eq_refl).
    unfold separation. cbn [screenX screenY touch_at].
    change (0 - 100) with (-100). change (0 - 0) with 0.
    rewrite H100. reflexivity. }
  assert (Hm2 : mode (final second) = Mode.ZoomPan).
  { rewrite E2. cbn. rewrite mode_disarm. exact Hm1. }
  assert (R2 : resolve env3 (final second) = Some el).
  { rewrite E2. cbn [final]. specialize (Rf env2).
    unfold resolve in *. cbn. rewrite Rf. reflexivity. }
  repeat apply conj.
  - rewrite E1. eexists. cbn [effects events].
    repeat apply conj; reflexivity.
  - exact Hm1.
  - exact Hp1.
  - intros Hp. rewrite E2. cbn [effects]. rewrite Hp1, Hp, app_nil_r.
    rewrite events_cons_preventDefault, events_dispatched, Rf. eauto.
  - rewrite E2. reflexivity.
  - unfold third.
    rewrite (touchmove_ZoomPan env3 narrow (final second) (touch_at 0 0)
               (touch_at 80 0) [] F2 Hm2 eq_refl).
    cbn [effects]. unfold separation. cbn [screenX screenY touch_at].
    change (0 - 80) with (-80). change (0 - 0) with 0. rewrite H80.
    assert (Hp2 : prevDistance (final second) = Some 100)
      by (rewrite E2; reflexivity).
    rewrite Hp2. change (truthy 100) with true. cbv iota.
    rewrite events_cons_preventDefault, events_app, !events_dispatched, R2.
    eexists _, _. repeat apply conj; reflexivity.
  - reflexivity.
Qed.

Lemma C2_pinch_scenario_witness :
  let started := final (touchstart demo_env wide initial) in
  let first := touchmove demo_env narrow started in
  let second := touchmove demo_env wide (final first) in
  let third := touchmove demo_env narrow (final second) in
  (exists down,
      events (effects first) = [down] /\
      ev_type down = mousedown /\ button down = 1 /\ buttons down = 4 /\
      num_field "screenX" down = Some 40 /\ num_field "screenY" down = Some 0) /\
  (exists mv wh,
      events (effects third) = [mv; wh] /\
      ev_type mv = mousemove /\ ev_type wh = mousewheel /\
      deltaY wh = Some ((80 - 100) / 1920 * 10000)).
Proof.
  intros started first second third.
  destruct (C2_pinch_scenario demo_env demo_env demo_env demo_env initial 7%nat)
    as (H1 & _ & _ & _ & _ & H3 & _); try reflexivity.
  split; [exact H1 | exact H3].
Defined.

(** ** One timer at a time *)

Lemma timer_only_retired h : timer_only (retired h).
Proof. repeat apply conj; intros ? s H; exact H. Qed.

Lemma find_filter_none {A} (p q : A -> bool) (l : list A) :
  find p l = None -> find p (filter q l) = None.
Proof.
  induction l as [|a l IH]; cbn; [reflexivity|].
  destruct (p a) eqn:Pa; [discriminate|]. intros H.
  destruct (q a); cbn; [rewrite Pa|]; apply IH, H.
Qed.

Lemma find_none_app {A} (p : A -> bool) (l1 l2 : list A) :
  find p l1 = None -> find p (l1 ++ l2) = find p l2.
Proof.
  induction l1 as [|a l1 IH]; cbn; [reflexivity|].
  destruct (p a); [discriminate | exact IH].
Qed.

Lemma retired_clearTimeout h h' s :
  retired h s -> retired h (final (clearTimeout h' s)).
Proof.
  intros [Hlt Hl]. split; [exact Hlt|].
  unfold lookup_timer in *. cbn. apply find_filter_none, Hl.
Qed.

Lemma retired_disarm h s : retired h s -> retired h (disarm s).
Proof.
  intros H. unfold disarm. destruct (contextMenuTimer s) as [h'|]; [|exact H].
  apply (retired_clearTimeout h h' s H).
Qed.

Lemma retired_checkEvent h e s :
  retired h s -> retired h (final (checkEvent e s)).
Proof.
  intros H. destruct (foreign e) eqn:F.
  - rewrite (checkEvent_foreign _ _ F). exact H.
  - rewrite (checkEvent_accept _ _ F). apply retired_disarm, H.
Qed.

Lemma retired_arm h e s : retired h s -> retired h (arm e s).
Proof.
  intros [Hlt Hl]. unfold retired, lookup_timer, arm in *. cbn. split; [lia|].
  rewrite (find_none_app _ _ _ Hl). cbn.
  destruct (Pos.eqb_spec (nextHandle s) h); [lia | reflexivity].
Qed.

Lemma retired_step h env n s :
  retired h s -> retired h (final (step env n s)).
Proof.
  intros H. destruct n as [e|e|e|h']; cbn [step].
  - destruct (foreign e) eqn:F.
    + change (touchstart env e s) with (step env (Touchstart e) s).
      rewrite step_rejected by exact F. exact H.
    + rewrite (touchstart_accept _ _ _ F). cbn [final].
      apply retired_arm, retired_disarm, H.
  - apply touchmove_timer_frame;
      [apply timer_only_retired | apply retired_checkEvent, H].
  - apply touchend_timer_frame;
      [apply timer_only_retired | apply retired_checkEvent, H].
  - rewrite fire_eq. destruct (lookup_timer h' s); [|exact H].
    rewrite contextMenu_eq. cbn [final].
    apply (retired_clearTimeout h h' s H).
Qed.

Lemma retired_run h tr s : retired h s -> retired h (fst (run s tr)).
Proof.
  revert s. induction tr as [|[env n] tr IH]; intros s H; [exact H|].
  rewrite run_cons. cbn [fst]. apply IH, retired_step, H.
Qed.

(** The handle the script holds is retired by the [checkEvent] of any
    accepted notification, before the listener does anything else. *)
Lemma retired_by_accepted h env n s :
  timer_inv s -> contextMenuTimer s = Some h -> accepted n = true ->
  retired h (final (step env n s)).
Proof.
  intros [Hlt Hi] Hh Ha.
  assert (Hd : retired h (disarm s)).
  { rewrite Hh in Hi. destruct Hi as (d & e & Ht). split.
    - unfold disarm. rewrite Hh. cbn.
      apply (Hlt {| handle := h; delay := d; closure := e |}).
      rewrite Ht. left. reflexivity.
    - unfold disarm, lookup_timer. rewrite Hh. cbn. apply find_filter_out. }
  destruct n as [e|e|e|h']; cbn [accepted step] in *; try discriminate;
    apply negb_true_iff in Ha.
  - rewrite (touchstart_accept _ _ _ Ha). cbn [final]. apply retired_arm, Hd.
  - apply touchmove_timer_frame; [apply timer_only_retired|].
    rewrite (checkEvent_accept _ _ Ha). exact Hd.
  - apply touchend_timer_frame; [apply timer_only_retired|].
    rewrite (checkEvent_accept _ _ Ha). exact Hd.
Qed.

(** C6. In every state the script can reach, the timer table holds at most
    one timer, and it is the one [contextMenuTimer] names.  Every listener
    is [checkEvent] followed by the rest, so an accepted notification,
    touch-start included, first empties the table and nulls
    [contextMenuTimer]; after the listener the table again holds at most
    one timer.  The handle that was outstanding before an accepted
    notification never fires again: whatever happens afterwards, its expiry
    dispatches nothing and changes nothing. *)
Theorem C6_single_long_press_timer
    (tr : list (Env * Notification)) (env : Env) (n : Notification) :
  accepted n = true ->
  let s := fst (run initial tr) in
  let s' := final (step env n s) in
  (List.length (timers s) <= 1)%nat /\
  (forall t, In t (timers s) -> contextMenuTimer s = Some (handle t)) /\
  (exists e k,
      event_of n = Some e /\
      step env n = bind (checkEvent e) k /\
      timers (final (checkEvent e s)) = [] /\
      contextMenuTimer (final (checkEvent e s)) = None) /\
  (List.length (timers s') <= 1)%nat /\
  (forall h, contextMenuTimer s = Some h ->
     forall tr' env',
       let s'' := fst (run s' tr') in
       step env' (Timeout h) s''
         = {| result := Some tt; final := s''; effects := [] |}).
Proof.
  intros Ha s s'.
  assert (Hs : timer_inv s) by (apply timer_inv_run, timer_inv_initial).
  assert (Hs' : timer_inv s') by (apply timer_inv_step, Hs).
  assert (Hlen : forall x, timer_inv x -> (List.length (timers x) <= 1)%nat).
  { intros x [_ Hx]. destruct (contextMenuTimer x).
    - destruct Hx as (d & e & ->). cbn. lia.
    - rewrite Hx. cbn. lia. }
  repeat apply conj.
  - apply Hlen, Hs.
  - intros t Ht. destruct Hs as [_ Hi]. destruct (contextMenuTimer s).
    + destruct Hi as (d & e & Hi). rewrite Hi in Ht.
      destruct Ht as [<-|[]]. reflexivity.
    + rewrite Hi in Ht. destruct Ht.
  - destruct n as [e|e|e|h]; cbn [accepted] in Ha; try discriminate;
      apply negb_true_iff in Ha;
      exists e; eexists; (split; [reflexivity|]); (split; [reflexivity|]);
      rewrite (checkEvent_accept _ _ Ha); cbn [final];
      destruct (disarm_clears s Hs) as (Ht & Hc & _); auto.
  - apply Hlen, Hs'.
  - intros h Hh tr' env' s''. cbn [step]. rewrite fire_eq.
    assert (Hr : retired h s'')
      by (apply retired_run, (retired_by_accepted h env n s Hs Hh Ha)).
    destruct Hr as [_ ->]. reflexivity.
Qed.

Lemma C6_single_long_press_timer_witness :
  let s := fst (run initial [(demo_env, Touchstart wide)]) in
  let s' := final (step demo_env (Touchstart narrow) s) in
  let s'' := fst (run s' [(demo_env, Touchmove narrow)]) in
  (List.length (timers s') <= 1)%nat /\
  step demo_env (Timeout 1) s''
    = {| result := Some tt; final := s''; effects := [] |}.
Proof.
  intros s s' s''.
  assert (Ha : accepted (Touchstart narrow) = true) by reflexivity.
  assert (Hh : contextMenuTimer s = Some 1%positive)
    by (vm_compute; reflexivity).
  destruct (C6_single_long_press_timer [(demo_env, Touchstart wide)]
              demo_env (Touchstart narrow) Ha)
    as (_ & _ & _ & Hl & Hf).
  split; [exact Hl|].
  exact (Hf 1%positive Hh [(demo_env, Touchmove narrow)] demo_env).
Defined.

(** ** Pinch memory outside [Mode.ZoomPan] *)

Lemma clean_initial : clean initial.
Proof. split; [right|left]; reflexivity. Qed.

Lemma clean_outside s m :
  clean s -> mode s = m -> m <> Mode.ZoomPan -> prevDistance s = None.
Proof. intros [[H|H] _] Hm Hne; [congruence | exact H]. Qed.

(** Every step keeps [clean], except a touch-start accepted in
    [Mode.ZoomPan]. *)
Lemma clean_step env n s :
  timer_inv s -> clean s ->
  (forall e, n = Touchstart e -> foreign e = false -> mode s <> Mode.ZoomPan) ->
  clean (final (step env n s)).
Proof.
  intros Hi Hc Hn.
  destruct (rejected n) eqn:Rj.
  { rewrite (step_rejected _ _ _ Rj). exact Hc. }
  destruct n as [e|e|e|h]; cbn [rejected step] in *.
  - rewrite (touchstart_accept _ _ _ Rj). cbn [final]. split.
    + right. change (prevDistance (arm e (disarm s)))
        with (prevDistance (disarm s)).
      rewrite prevDistance_disarm.
      destruct Hc as [[H|H] _]; [|exact H].
      exfalso. exact (Hn e eq_refl Rj H).
    + right. rewrite mode_arm.
      destruct (Nat.leb 2 (List.length (touches e))); auto.
  - destruct (mode s) eqn:Hm.
    + rewrite (touchmove_None _ _ _ Rj Hm). cbn [final]. split.
      * right. rewrite prevDistance_disarm.
        apply (clean_outside s _ Hc Hm). discriminate.
      * left. apply contextMenuTimer_disarm.
    + rewrite (touchmove_PreRotate _ _ _ Rj Hm). cbn [final]. split.
      * right. cbn. rewrite prevDistance_disarm.
        apply (clean_outside s _ Hc Hm). discriminate.
      * left. cbn. apply contextMenuTimer_disarm.
    + rewrite (touchmove_PreZoomPan _ _ _ Rj Hm). cbn [final]. split.
      * left. reflexivity.
      * left. cbn. apply contextMenuTimer_disarm.
    + rewrite (touchmove_Rotate _ _ _ Rj Hm). cbn [final]. split.
      * right. cbn. rewrite prevDistance_disarm.
        apply (clean_outside s _ Hc Hm). discriminate.
      * left. cbn. apply contextMenuTimer_disarm.
    + destruct (touches e) as [|t0 [|t1 rest]] eqn:Ht.
      1,2: rewrite touchmove_ZoomPan_short by (auto; rewrite Ht; cbn; lia);
        cbn [final]; split; left; cbn;
        [rewrite mode_disarm; exact Hm | apply contextMenuTimer_disarm].
      rewrite (touchmove_ZoomPan _ _ _ _ _ _ Rj Hm Ht). cbn [final].
      split; left; cbn;
        [rewrite mode_disarm; exact Hm | apply contextMenuTimer_disarm].
  - destruct (mode s) eqn:Hm.
    + rewrite touchend_unhandled by auto. cbn [final]. split.
      * right. rewrite prevDistance_disarm.
        apply (clean_outside s _ Hc Hm). discriminate.
      * left. apply contextMenuTimer_disarm.
    + rewrite (touchend_PreRotate _ _ _ Rj Hm). cbn [final]. split.
      * right. cbn. rewrite prevDistance_disarm.
        apply (clean_outside s _ Hc Hm). discriminate.
      * left. cbn. apply contextMenuTimer_disarm.
    + rewrite touchend_unhandled by auto. cbn [final]. split.
      * right. rewrite prevDistance_disarm.
        apply (clean_outside s _ Hc Hm). discriminate.
      * left. apply contextMenuTimer_disarm.
    + rewrite (touchend_Rotate _ _ _ Rj Hm). cbn [final]. split.
      * right. cbn. rewrite prevDistance_disarm.
        apply (clean_outside s _ Hc Hm). discriminate.
      * left. cbn. apply contextMenuTimer_disarm.
    + rewrite (touchend_ZoomPan _ _ _ Rj Hm). cbn [final]. split.
      * right. reflexivity.
      * left. cbn. apply contextMenuTimer_disarm.
  - rewrite fire_eq. destruct (lookup_timer h s) as [tm|] eqn:L; [|exact Hc].
    rewrite contextMenu_eq. cbn [final].
    destruct (lookup_timer_inv _ _ _ Hi L) as (Ht & _).
    split; [right|left; reflexivity]. cbn.
    destruct Hc as [Hc1 [Hc2|Hc2]]; [congruence|].
    destruct Hc1 as [Hc1|Hc1]; [|exact Hc1].
    destruct Hc2; congruence.
Qed.

(** Short of that one path, the pinch memory is unset whenever the mode is
    not [Mode.ZoomPan], after any run. *)
Lemma pinch_memory_clear_without_restart tr s :
  timer_inv s -> clean s -> no_restart s tr ->
  clean (fst (run s tr)).
Proof.
  revert s. induction tr as [|[env n] tr IH]; intros s Hi Hc Hn; [exact Hc|].
  destruct Hn as [Hn Hrest]. rewrite run_cons. cbn [fst].
  apply IH; [apply timer_inv_step, Hi | apply clean_step; assumption | exact Hrest].
Qed.

Corollary pinch_memory_clear_from_initial tr :
  no_restart initial tr ->
  let s := fst (run initial tr) in
  mode s <> Mode.ZoomPan -> prevDistance s = None.
Proof.
  intros Hn s Hm.
  destruct (pinch_memory_clear_without_restart tr initial
              timer_inv_initial clean_initial Hn) as [[H|H] _];
    [contradiction | exact H].
Qed.

(** X17. In a run from the initial state in which no touch-start is
    accepted while the script is in [Mode.ZoomPan], a two-finger gesture
    begun outside [Mode.ZoomPan] dispatches no wheel event up to and
    including its first move in [Mode.ZoomPan]. *)
Theorem first_pinch_move_silent_without_restart
    (tr : list (Env * Notification)) (env0 env1 env2 : Env)
    (e0 e1 e2 : TouchEvent) :
  no_restart initial tr ->
  mode (fst (run initial tr)) <> Mode.ZoomPan ->
  foreign e0 = false -> foreign e1 = false -> foreign e2 = false ->
  (2 <= List.length (touches e0))%nat ->
  let r := run (fst (run initial tr))
             [ (env0, Touchstart e0); (env1, Touchmove e1);
               (env2, Touchmove e2) ] in
  mode (fst r) = Mode.ZoomPan /\
  forall ev, In ev (events (snd r)) -> ev_type ev <> mousewheel.
Proof.
  intros Hn Hm. apply fresh_pinch_no_wheel.
  exact (pinch_memory_clear_from_initial tr Hn Hm).
Qed.

Lemma first_pinch_move_silent_without_restart_witness :
  let before := [ (demo_env, Touchstart wide); (demo_env, Touchmove wide);
                  (demo_env, Touchmove wide);
                  (demo_env, Touchend (on_canvas [touch_at 0 0])) ] in
  let r := run (fst (run initial before))
             [ (demo_env, Touchstart narrow); (demo_env, Touchmove narrow);
               (demo_env, Touchmove narrow) ] in
  mode (fst r) = Mode.ZoomPan /\
  forall ev, In ev (events (snd r)) -> ev_type ev <> mousewheel.
Proof.
  intros before r.
  apply (first_pinch_move_silent_without_restart before demo_env demo_env
           demo_env narrow narrow narrow).
  - vm_compute. repeat apply conj; try exact I; intros ? ? ?; discriminate.
  - vm_compute. discriminate.
  - reflexivity.
  - reflexivity.
  - reflexivity.
  - cbn. lia.
Defined.

(** C1. The script run on a pinch interrupted by a touch-start: after
    start, move, move (fingers 100 apart) and a further accepted touch-start,
    the mode is [Mode.PreZoomPan], the previous distance is still 100 and a
    timer is armed as well; when that timer fires the mode is [Mode.None]
    with the distance still stored; and the next, independent pinch
    dispatches a wheel event on its first move in [Mode.ZoomPan], computed
    against the stale 100. *)
Theorem C1_stale_pinch_memory :
  let restarted :=
    fst (run initial [ (demo_env, Touchstart wide); (demo_env, Touchmove wide);
                       (demo_env, Touchmove wide);
                       (demo_env, Touchstart third_finger) ]) in
  let idle := fst (run restarted [(demo_env, Timeout 2)]) in
  let next := run idle [ (demo_env, Touchstart narrow);
                         (demo_env, Touchmove narrow);
                         (demo_env, Touchmove narrow) ] in
  (mode restarted = Mode.PreZoomPan /\
   prevDistance restarted = Some 100 /\
   contextMenuTimer restarted = Some 2%positive) /\
  (mode idle = Mode.None /\ prevDistance idle = Some 100) /\
  (exists down mv wh,
      events (snd next) = [down; mv; wh] /\
      ev_type wh = mousewheel /\
      deltaY wh = Some ((80 - 100) / 1920 * 10000)).
Proof.
  cbv zeta. repeat apply conj; try (vm_compute; reflexivity).
  eexists _, _, _. repeat apply conj; vm_compute; reflexivity.
Qed.

(** * Further properties of the script *)

(** ** The transition function *)

Lemma step_transition env n s : step env n s = transition env n s.
Proof.
  destruct n as [e|e|e|h]; cbn [step transition].
  - destruct (foreign e) eqn:F.
    + change (touchstart env e s) with (step env (Touchstart e) s).
      apply step_rejected, F.
    + apply touchstart_accept, F.
  - destruct (foreign e) eqn:F.
    { change (touchmove env e s) with (step env (Touchmove e) s).
      apply step_rejected, F. }
    destruct (mode s) eqn:Hm.
    + apply touchmove_None; assumption.
    + apply touchmove_PreRotate; assumption.
    + apply touchmove_PreZoomPan; assumption.
    + apply touchmove_Rotate; assumption.
    + destruct (touches e) as [|t0 [|t1 rest]] eqn:Ht.
      * apply touchmove_ZoomPan_short; try assumption. rewrite Ht. cbn. lia.
      * apply touchmove_ZoomPan_short; try assumption. rewrite Ht. cbn. lia.
      * apply (touchmove_ZoomPan env e s t0 t1 rest); assumption.
  - destruct (foreign e) eqn:F.
    { change (touchend env e s) with (step env (Touchend e) s).
      apply step_rejected, F. }
    destruct (mode s) eqn:Hm.
    + apply touchend_unhandled; auto.
    + rewrite (touchend_PreRotate _ _ _ F Hm). unfold dispatched.
      destruct (resolve env s); reflexivity.
    + apply touchend_unhandled; auto.
    + apply touchend_Rotate; assumption.
    + apply touchend_ZoomPan; assumption.
  - rewrite fire_eq. destruct (lookup_timer h s) as [tm|]; [|reflexivity].
    rewrite contextMenu_eq. unfold dispatched.
    change (resolve env (final (clearTimeout h s))) with (resolve env s).
    destruct (resolve env s); reflexivity.
Qed.

(** X1. The mode after any notification is [next_mode]: a touch-start
    always lands in one of the two pending modes; a move only promotes a
    pending mode and otherwise leaves the mode alone (also when it throws);
    a touch-end returns to [Mode.None] from [ZoomPan], [Rotate] and
    [PreRotate] and leaves [PreZoomPan] and [None] as they are; a timer that
    is still pending returns to [Mode.None]; a rejected notification and an
    expired handle change nothing. *)
Theorem mode_after_step (env : Env) (n : Notification) (s : State) :
  mode (final (step env n s)) = next_mode n s.
Proof.
  rewrite step_transition. unfold transition, next_mode, quiet.
  destruct n as [e|e|e|h].
  - destruct (foreign e); reflexivity.
  - destruct (foreign e); [reflexivity|].
    destruct (mode s) eqn:Hm; cbn; rewrite ?mode_disarm; try assumption;
      try reflexivity.
    destruct (touches e) as [|t0 [|t1 rest]]; cbn; rewrite mode_disarm;
      assumption.
  - destruct (foreign e); [reflexivity|].
    destruct (mode s) eqn:Hm; cbn; rewrite ?mode_disarm; try assumption;
      reflexivity.
  - destruct (lookup_timer h s); reflexivity.
Qed.

(** Case analysis on a step, along [transition]. *)
Ltac step_cases n s :=
  let e := fresh "e" in
  let h := fresh "h" in
  let F := fresh "F" in
  let Hm := fresh "Hm" in
  let Ht := fresh "Ht" in
  let L := fresh "L" in
  rewrite ?step_transition; unfold transition, quiet;
  destruct n as [e|e|e|h];
  [ destruct (foreign e) eqn:F
  | destruct (foreign e) eqn:F;
    [| destruct (mode s) eqn:Hm;
       [ | | | | destruct (touches e) as [|? [|? ?]] eqn:Ht ] ]
  | destruct (foreign e) eqn:F; [| destruct (mode s) eqn:Hm ]
  | destruct (lookup_timer h s) as [?|] eqn:L ];
  cbn [result final effects].

(** ** The one exception *)

(** X2. A listener call ends in an uncaught [TypeError] in exactly one
    situation: an accepted move, handled in [Mode.ZoomPan], that carries
    fewer than two touch points.  By then that call has called
    [preventDefault], disarmed the timer and dispatched its [mousemove]
    (button 2, on the canvas when there is one): these are its effects, all
    of them.  It dispatches no wheel event, stays in [Mode.ZoomPan] and
    leaves the previous distance as it was. *)
Theorem TypeError_only_on_short_pinch_move (env : Env) (n : Notification) (s : State) :
  (result (step env n s) = None <->
   exists e, n = Touchmove e /\ foreign e = false /\
             mode s = Mode.ZoomPan /\ (List.length (touches e) < 2)%nat)
  /\
  (result (step env n s) = None ->
   (exists e, n = Touchmove e /\
      effects (step env n s)
      = PreventDefault ::
        match resolve env s with
        | Some el =>
            [Dispatch el
               (construct mousemove (make_init e [("button", VNum 2)]))]
        | None => []
        end) /\
   mode (final (step env n s)) = Mode.ZoomPan /\
   prevDistance (final (step env n s)) = prevDistance s /\
   contextMenuTimer (final (step env n s)) = None /\
   count_preventDefault (effects (step env n s)) = 1%nat /\
   forall ev, In ev (events (effects (step env n s))) -> ev_type ev = mousemove).
Proof.
  split.
  - split.
    + step_cases n s; try discriminate; intros _; eexists;
        (repeat apply conj; [reflexivity | assumption | reflexivity |]);
        rewrite Ht; cbn; lia.
    + intros (e & -> & F & Hm & Ht). rewrite step_transition. cbn [transition].
      rewrite F, Hm. destruct (touches e) as [|t0 [|t1 rest]];
        [reflexivity | reflexivity | cbn in Ht; lia].
  - step_cases n s; try discriminate; intros _;
      (repeat apply conj;
       [ eexists; split; reflexivity
       | cbn; rewrite mode_disarm; assumption
       | cbn; apply prevDistance_disarm
       | cbn; apply contextMenuTimer_disarm
       | unfold dispatched; destruct (resolve env s); reflexivity
       | intros ev Hev; rewrite events_cons_preventDefault in Hev;
         apply in_events_dispatched in Hev; subst ev; reflexivity ]).
Qed.

Lemma TypeError_only_on_short_pinch_move_witness :
  let lone := on_canvas [touch_at 10 10] in
  let o := step demo_env (Touchmove lone) pinching_100 in
  result o = None /\
  effects o
    = [ PreventDefault;
        Dispatch 7%nat
          (construct mousemove (make_init lone [("button", VNum 2)])) ] /\
  prevDistance (final o) = Some 100.
Proof.
  intros lone o.
  destruct (TypeError_only_on_short_pinch_move demo_env (Touchmove lone)
              pinching_100) as [[_ H] H'].
  assert (Hr : result o = None).
  { apply H. exists lone. repeat apply conj; try reflexivity. cbn. lia. }
  destruct (H' Hr) as ((e & He & Heff) & _ & Hp & _).
  injection He as <-.
  repeat apply conj; [exact Hr | exact Heff | exact (eq_trans Hp eq_refl)].
Defined.

(** ** Rejected notifications and [preventDefault] *)

Lemma count_preventDefault_app l1 l2 :
  count_preventDefault (l1 ++ l2)
  = (count_preventDefault l1 + count_preventDefault l2)%nat.
Proof.
  induction l1 as [|[|el ev] l1 IH]; cbn; [reflexivity | rewrite IH | exact IH].
  reflexivity.
Qed.

Lemma count_preventDefault_dispatched env s e ty ei :
  count_preventDefault (dispatched env s e ty ei) = 0%nat.
Proof. unfold dispatched. destruct (resolve env s); reflexivity. Qed.

Lemma count_preventDefault_step env n s :
  count_preventDefault (effects (step env n s))
  = if accepted n then 1%nat else 0%nat.
Proof.
  step_cases n s; cbn [accepted]; rewrite ?F; cbn [negb];
    cbn [count_preventDefault];
    rewrite ?count_preventDefault_app, ?count_preventDefault_dispatched;
    try reflexivity.
  destruct (prevDistance s) as [p|]; [destruct (truthy p)|];
    rewrite ?count_preventDefault_dispatched; reflexivity.
Qed.

(** X3. Rejected notifications are invisible: a run does to the state and
    to the outside world exactly what the same run without them does. *)
Theorem rejected_notifications_are_invisible
    (s : State) (tr : list (Env * Notification)) :
  run s tr = run s (filter (fun en => negb (rejected (snd en))) tr).
Proof.
  revert s. induction tr as [|[env n] tr IH]; intros s; [reflexivity|].
  cbn [filter snd]. destruct (rejected n) eqn:R; cbn [negb].
  - rewrite run_cons, (step_rejected _ _ _ R). cbn [final effects app].
    rewrite <- IH. destruct (run s tr); reflexivity.
  - rewrite !run_cons, IH. reflexivity.
Qed.

(** X4. [preventDefault] is called exactly once for each accepted touch
    notification of a run, and never for a rejected one or for a timer. *)
Theorem preventDefault_once_per_accepted
    (s : State) (tr : list (Env * Notification)) :
  count_preventDefault (snd (run s tr))
  = List.length (filter (fun en => accepted (snd en)) tr).
Proof.
  revert s. induction tr as [|[env n] tr IH]; intros s; [reflexivity|].
  rewrite run_cons. cbn [snd filter].
  rewrite count_preventDefault_app, count_preventDefault_step, IH.
  destruct (accepted n); reflexivity.
Qed.

(** ** The cached canvas *)

Lemma in_dispatched env s e ty ei el ev :
  In (Dispatch el ev) (dispatched env s e ty ei) -> resolve env s = Some el.
Proof.
  unfold dispatched. destruct (resolve env s); cbn; [|contradiction].
  intros [H|[]]. injection H as -> _. reflexivity.
Qed.

Lemma resolve_cached env s c : canvas s = Some c -> resolve env s = Some c.
Proof. unfold resolve. intros ->. reflexivity. Qed.

(** Every dispatch of a step goes to the element the step then caches. *)
Lemma step_dispatch_target env n s el ev :
  In (Dispatch el ev) (effects (step env n s)) ->
  resolve env s = Some el /\ canvas (final (step env n s)) = Some el.
Proof.
  step_cases n s; intros H;
    repeat match goal with
      | H : In _ [] |- _ => destruct H
      | H : In _ (_ :: _) |- _ => destruct H as [H|H]; [discriminate|]
      | H : In _ (_ ++ _) |- _ => apply in_app_or in H; destruct H as [H|H]
      | H : In _ match prevDistance s with _ => _ end |- _ =>
          destruct (prevDistance s) as [p|]; [destruct (truthy p)|]
      | H : In _ (dispatched _ _ _ _ _) |- _ => apply in_dispatched in H
      end;
    split; try assumption; cbn; assumption.
Qed.

Lemma canvas_kept_step env n s c :
  canvas s = Some c -> canvas (final (step env n s)) = Some c.
Proof.
  intros Hc. pose proof (resolve_cached env s c Hc) as R.
  step_cases n s; cbn; rewrite ?canvas_disarm; assumption.
Qed.

(** X5. The canvas element is looked up until it is found and never again:
    once an element is cached, every later notification keeps it and
    dispatches on it, whatever [getElementById] would answer by then; and in
    any run from any state, all events are dispatched on one and the same
    element. *)
Theorem canvas_resolved_once (s : State) (tr : list (Env * Notification)) :
  (forall c, canvas s = Some c ->
     canvas (fst (run s tr)) = Some c /\
     forall el ev, In (Dispatch el ev) (snd (run s tr)) -> el = c)
  /\
  (forall el1 ev1 el2 ev2,
     In (Dispatch el1 ev1) (snd (run s tr)) ->
     In (Dispatch el2 ev2) (snd (run s tr)) -> el1 = el2).
Proof.
  assert (A : forall tr s c, canvas s = Some c ->
     canvas (fst (run s tr)) = Some c /\
     forall el ev, In (Dispatch el ev) (snd (run s tr)) -> el = c).
  { clear. induction tr as [|[env n] tr IH]; intros s c Hc.
    - split; [exact Hc | intros el ev []].
    - rewrite run_cons. cbn [fst snd].
      destruct (IH _ c (canvas_kept_step env n s c Hc)) as [IH1 IH2].
      split; [exact IH1|]. intros el ev H. apply in_app_or in H.
      destruct H as [H|H]; [|exact (IH2 el ev H)].
      apply step_dispatch_target in H as [R _].
      rewrite (resolve_cached env s c Hc) in R. congruence. }
  split; [apply A|].
  revert s. induction tr as [|[env n] tr IH]; intros s el1 ev1 el2 ev2;
    [intros []|].
  rewrite run_cons. cbn [snd]. intros H1 H2.
  apply in_app_or in H1. apply in_app_or in H2.
  destruct H1 as [H1|H1], H2 as [H2|H2].
  - apply step_dispatch_target in H1 as [R1 _].
    apply step_dispatch_target in H2 as [R2 _]. congruence.
  - apply step_dispatch_target in H1 as [_ C1].
    symmetry. exact (proj2 (A tr _ el1 C1) el2 ev2 H2).
  - apply step_dispatch_target in H2 as [_ C2].
    exact (proj2 (A tr _ el2 C2) el1 ev1 H1).
  - exact (IH _ el1 ev1 el2 ev2 H1 H2).
Qed.

(** A browser in which the canvas has been replaced by another element. *)
Lemma canvas_resolved_once_witness :
  let later := {| getElementById := fun _ => Some 9%nat;
                  screen_width := 1920;
                  Math_hypot := Math_hypot demo_env |} in
  let r := run pinching_100 [(later, Touchmove narrow); (later, Touchend narrow)] in
  canvas (fst r) = Some 7%nat /\
  forall el ev, In (Dispatch el ev) (snd r) -> el = 7%nat.
Proof.
  intros later r.
  destruct (canvas_resolved_once pinching_100
              [(later, Touchmove narrow); (later, Touchend narrow)]) as [H _].
  apply (H 7%nat). reflexivity.
Defined.

(** X6. The classifier does not depend on the canvas: with the same
    [Math.hypot], a notification leaves the same mode, previous distance,
    timer and timer table, and ends the same way, whether or not a canvas is
    cached or can be found.  When there is none to be found, nothing is
    dispatched and nothing is cached, and the transition still happens. *)
Theorem classifier_independent_of_canvas
    (env env' : Env) (n : Notification) (s : State) (c : option Element) :
  (forall x y, Math_hypot env' x y = Math_hypot env x y) ->
  forget_canvas (final (step env' n (with_canvas c s)))
    = forget_canvas (final (step env n s)) /\
  result (step env' n (with_canvas c s)) = result (step env n s) /\
  (resolve env s = None ->
   events (effects (step env n s)) = [] /\
   canvas (final (step env n s)) = None).
Proof.
  intros Hh.
  assert (D : forall c', forget_canvas (disarm (with_canvas c' s))
                         = forget_canvas (disarm s)).
  { intros c'. unfold disarm, forget_canvas. cbn [contextMenuTimer with_canvas].
    destruct (contextMenuTimer s); reflexivity. }
  assert (Dp : forall c', prevDistance (with_canvas c' s) = prevDistance s)
    by reflexivity.
  repeat apply conj.
  - rewrite !step_transition. unfold transition, quiet.
    destruct n as [e|e|e|h].
    + destruct (foreign e); [reflexivity|]. cbn [final].
      specialize (D c). unfold forget_canvas, arm, disarm in *.
      cbn in *. destruct (contextMenuTimer s); cbn in *; reflexivity.
    + destruct (foreign e); [reflexivity|].
      change (mode (with_canvas c s)) with (mode s).
      specialize (D c). unfold forget_canvas, disarm in *.
      destruct (mode s); cbn [final];
        try (destruct (touches e) as [|t0 [|t1 rest]]; cbn [final]);
        unfold separation; rewrite ?Hh;
        cbn in *; destruct (contextMenuTimer s); cbn in *; reflexivity.
    + destruct (foreign e); [reflexivity|].
      change (mode (with_canvas c s)) with (mode s).
      unfold forget_canvas, disarm.
      destruct (mode s); cbn [final];
        cbn; destruct (contextMenuTimer s); cbn; reflexivity.
    + change (lookup_timer h (with_canvas c s)) with (lookup_timer h s).
      destruct (lookup_timer h s); reflexivity.
  - rewrite !step_transition. unfold transition, quiet.
    destruct n as [e|e|e|h].
    + destruct (foreign e); reflexivity.
    + destruct (foreign e); [reflexivity|].
      change (mode (with_canvas c s)) with (mode s).
      destruct (mode s); try reflexivity.
      destruct (touches e) as [|t0 [|t1 rest]]; reflexivity.
    + destruct (foreign e); [reflexivity|].
      change (mode (with_canvas c s)) with (mode s).
      destruct (mode s); reflexivity.
    + change (lookup_timer h (with_canvas c s)) with (lookup_timer h s).
      destruct (lookup_timer h s); reflexivity.
  - intros R. unfold resolve in R.
    destruct (canvas s) as [x|] eqn:Hc; [discriminate|]. split.
    + step_cases n s; unfold dispatched, resolve; rewrite ?Hc, ?R;
        try reflexivity.
      destruct (prevDistance s) as [p|]; [destruct (truthy p)|]; reflexivity.
    + step_cases n s; unfold resolve; cbn; rewrite ?canvas_disarm, ?Hc, ?R;
        reflexivity.
Qed.

Lemma classifier_independent_of_canvas_witness :
  let nowhere := {| getElementById := fun _ => None;
                    screen_width := 1920;
                    Math_hypot := Math_hypot demo_env |} in
  let s := final (step nowhere (Touchstart wide) initial) in
  events (effects (step nowhere (Touchmove wide) s)) = [] /\
  mode (final (step nowhere (Touchmove wide) s)) = Mode.ZoomPan.
Proof.
  intros nowhere s.
  destruct (classifier_independent_of_canvas nowhere nowhere (Touchmove wide)
              s None) as (_ & _ & H); [reflexivity|].
  split; [apply H; reflexivity | reflexivity].
Defined.

(** ** Whole gestures *)

Lemma get_hidden_key k e ei :
  In k ["button"; "buttons"; "deltaY"] ->
  get k (make_init e ei) = get k ei.
Proof.
  intros Hk. unfold make_init. rewrite !get_app.
  assert (Hb : get k [("bubbles", VBool true)] = None)
    by (cbn in Hk; decompose [or] Hk; subst; try contradiction; reflexivity).
  assert (Hc : get k (coordinates (touches e)) = None)
    by (destruct (touches e) as [|t0 [|t1 r]];
        cbn in Hk; decompose [or] Hk; subst; try contradiction; reflexivity).
  rewrite Hb, Hc. destruct (get k ei); reflexivity.
Qed.

Lemma summary_construct e ty ei :
  summary (construct ty (make_init e ei))
  = (ty,
     match get "button" ei with Some (VNum x) => Some x | _ => None end,
     match get "buttons" ei with Some (VNum x) => Some x | _ => None end).
Proof.
  unfold summary, num_field. cbn [construct ev_type ev_init].
  rewrite !get_hidden_key by (cbn; auto). reflexivity.
Qed.

Lemma summary_dispatched s el env e ty ei :
  resolve env s = Some el ->
  map summary (events (dispatched env s e ty ei))
  = [summary (construct ty (make_init e ei))].
Proof. intros R. rewrite events_dispatched, R. reflexivity. Qed.

Lemma run_moves_cons s env e ms :
  run s (moves ((env, e) :: ms)) =
  (fst (run (final (step env (Touchmove e) s)) (moves ms)),
   effects (step env (Touchmove e) s)
   ++ snd (run (final (step env (Touchmove e) s)) (moves ms))).
Proof. reflexivity. Qed.

(** Moves while rotating: one [mousemove] with button 2, buttons 2 each. *)
Lemma rotate_moves el ms s :
  mode s = Mode.Rotate -> canvas s = Some el -> all_accepted ms ->
  map summary (events (snd (run s (moves ms))))
    = repeat (mousemove, Some 2, Some 2) (List.length ms) /\
  mode (fst (run s (moves ms))) = Mode.Rotate /\
  canvas (fst (run s (moves ms))) = Some el /\
  prevDistance (fst (run s (moves ms))) = prevDistance s.
Proof.
  revert s. induction ms as [|[env e] ms IH]; intros s Hm Hc Ha.
  - cbn. auto.
  - inversion Ha as [|? ? F Ha']; subst. cbn [snd] in F.
    rewrite run_moves_cons. cbn [fst snd step].
    rewrite (touchmove_Rotate env e s F Hm) in *. cbn [final effects].
    pose proof (resolve_cached env s el Hc) as R.
    destruct (IH (with_canvas (resolve env s) (disarm s))) as (I1 & I2 & I3 & I4).
    + cbn. rewrite mode_disarm. exact Hm.
    + cbn. exact R.
    + exact Ha'.
    + cbn [app]. rewrite events_cons_preventDefault, events_app, map_app.
      rewrite (summary_dispatched s el) by exact R.
      rewrite summary_construct, I1. cbn [get common String.eqb].
      repeat apply conj; try assumption; [reflexivity|].
      rewrite I4. cbn. apply prevDistance_disarm.
Qed.

(** X7. A one-finger drag: an accepted touch-start with fewer than two
    touch points, one or more accepted moves and an accepted touch-end
    dispatch a [mousedown] on the first move, one [mousemove] for every
    further move and a [mouseup] at the end, all with button 2 and buttons
    2, and nothing else.  The gesture ends in [Mode.None] with no timer
    pending and the previous distance untouched. *)
Theorem rotate_drag
    (s : State) (el : Element) (env0 env1 : Env) (e0 e1 : TouchEvent)
    (first : Env * TouchEvent) (more : list (Env * TouchEvent)) :
  foreign e0 = false -> (List.length (touches e0) < 2)%nat ->
  all_accepted (first :: more) -> foreign e1 = false ->
  resolve (fst first) s = Some el ->
  let r := run s ((env0, Touchstart e0) :: moves (first :: more)
                  ++ [(env1, Touchend e1)]) in
  map summary (events (snd r))
    = (mousedown, Some 2, Some 2)
      :: repeat (mousemove, Some 2, Some 2) (List.length more)
      ++ [(mouseup, Some 2, Some 2)] /\
  mode (fst r) = Mode.None /\
  contextMenuTimer (fst r) = None /\
  prevDistance (fst r) = prevDistance s.
Proof.
  intros F0 Hl Ha F1 R r. subst r. destruct first as [envf ef].
  inversion Ha as [|? ? Ff Ha']; subst. cbn [fst snd] in *.
  rewrite run_cons. cbn [step].
  rewrite (touchstart_accept _ _ _ F0). cbn [final effects fst snd].
  assert (Hm1 : mode (arm e0 (disarm s)) = Mode.PreRotate).
  { rewrite mode_arm. apply Nat.leb_gt in Hl. rewrite Hl. reflexivity. }
  assert (R1 : resolve envf (arm e0 (disarm s)) = Some el).
  { unfold resolve in *. cbn. rewrite canvas_disarm. exact R. }
  rewrite run_app, run_moves_cons. cbn [fst snd step].
  rewrite (touchmove_PreRotate envf ef _ Ff Hm1). cbn [final effects].
  set (s2 := with_canvas _ (with_mode Mode.Rotate _)).
  assert (Hm2 : mode s2 = Mode.Rotate) by reflexivity.
  assert (Hc2 : canvas s2 = Some el) by (unfold s2; cbn; exact R1).
  destruct (rotate_moves el more s2 Hm2 Hc2 Ha') as (I1 & I2 & I3 & I4).
  rewrite run_cons. cbn [run step fst snd].
  rewrite (touchend_Rotate env1 e1 _ F1 I2). cbn [final effects].
  pose proof (resolve_cached env1 _ el I3) as R3.
  repeat apply conj.
  - cbn [app events]. rewrite !events_app, !map_app.
    rewrite events_cons_preventDefault, app_nil_r.
    rewrite (summary_dispatched _ el) by exact R1.
    rewrite (summary_dispatched _ el) by exact R3.
    rewrite I1, !summary_construct. reflexivity.
  - reflexivity.
  - cbn. apply contextMenuTimer_disarm.
  - cbn. rewrite prevDistance_disarm, I4. unfold s2. cbn.
    rewrite ?prevDistance_disarm. cbn. rewrite ?prevDistance_disarm.
    reflexivity.
Qed.

Lemma rotate_drag_witness :
  let finger x := on_canvas [touch_at x 10] in
  let r := run initial
             ((demo_env, Touchstart (finger 10))
              :: moves [(demo_env, finger 20); (demo_env, finger 30);
                        (demo_env, finger 40)]
              ++ [(demo_env, Touchend (on_canvas []))]) in
  map summary (events (snd r))
    = [ (mousedown, Some 2, Some 2); (mousemove, Some 2, Some 2);
        (mousemove, Some 2, Some 2); (mouseup, Some 2, Some 2) ] /\
  mode (fst r) = Mode.None.
Proof.
  intros finger r.
  destruct (rotate_drag initial 7%nat demo_env demo_env (finger 10)
              (on_canvas []) (demo_env, finger 20)
              [(demo_env, finger 30); (demo_env, finger 40)])
    as (H & Hm & _).
  - reflexivity.
  - cbn. lia.
  - repeat constructor.
  - reflexivity.
  - reflexivity.
  - split; [exact H | exact Hm].
Defined.

(** Moves while zooming: each dispatches its [mousemove], with or without
    a wheel event after it, also the move that throws. *)
Lemma pinch_moves el ms s :
  mode s = Mode.ZoomPan -> canvas s = Some el -> all_accepted ms ->
  (exists chunks,
      map summary (events (snd (run s (moves ms)))) = List.concat chunks /\
      List.length chunks = List.length ms /\
      Forall pinch_chunk chunks) /\
  mode (fst (run s (moves ms))) = Mode.ZoomPan /\
  canvas (fst (run s (moves ms))) = Some el.
Proof.
  revert s. induction ms as [|[env e] ms IH]; intros s Hm Hc Ha.
  - cbn. repeat apply conj; auto. exists []. cbn. auto.
  - inversion Ha as [|? ? F Ha']; subst. cbn [snd] in F.
    rewrite run_moves_cons. cbn [fst snd].
    pose proof (resolve_cached env s el Hc) as R.
    rewrite step_transition. cbn [transition]. rewrite F, Hm.
    assert (Hs : forall s', mode s' = Mode.ZoomPan -> canvas s' = Some el ->
              forall c out,
                pinch_chunk c -> map summary (events out) = c ->
                (exists chunks,
                    map summary
                      (events ((PreventDefault :: out)
                               ++ snd (run s' (moves ms)))) = List.concat chunks /\
                    List.length chunks = S (List.length ms) /\
                    Forall pinch_chunk chunks) /\
                mode (fst (run s' (moves ms))) = Mode.ZoomPan /\
                canvas (fst (run s' (moves ms))) = Some el).
    { intros s' Hm' Hc' c out Pc Eo.
      destruct (IH s' Hm' Hc' Ha') as ((chunks & I1 & I2 & I3) & I4 & I5).
      repeat apply conj; try assumption.
      exists (c :: chunks). cbn [app List.concat List.length].
      rewrite events_cons_preventDefault, events_app, map_app, Eo, I1, I2.
      auto. }
    destruct (touches e) as [|t0 [|t1 rest]]; cbn [final effects].
    1,2: apply (Hs _) with (c := [(mousemove, Some 2, None)]);
      [ cbn; rewrite mode_disarm; exact Hm
      | cbn; exact R
      | left; reflexivity
      | rewrite (summary_dispatched s el) by exact R;
        rewrite summary_construct; reflexivity ].
    destruct (prevDistance s) as [p|]; [destruct (truthy p)|].
    + apply (Hs _) with
        (c := [(mousemove, Some 2, None); (mousewheel, None, None)]);
        [ cbn; rewrite mode_disarm; exact Hm
        | cbn; exact R
        | right; reflexivity
        | rewrite events_app, map_app, !(summary_dispatched s el) by exact R;
          rewrite !summary_construct; reflexivity ].
    + apply (Hs _) with (c := [(mousemove, Some 2, None)]);
        [ cbn; rewrite mode_disarm; exact Hm
        | cbn; exact R
        | left; reflexivity
        | rewrite app_nil_r, (summary_dispatched s el) by exact R;
          rewrite summary_construct; reflexivity ].
    + apply (Hs _) with (c := [(mousemove, Some 2, None)]);
        [ cbn; rewrite mode_disarm; exact Hm
        | cbn; exact R
        | left; reflexivity
        | rewrite app_nil_r, (summary_dispatched s el) by exact R;
          rewrite summary_construct; reflexivity ].
Qed.

(** X8. A two-finger drag: an accepted touch-start with two or more touch
    points, one or more accepted moves and an accepted touch-end dispatch a
    [mousedown] with button 1, buttons 4 on the first move; for every
    further move a [mousemove] with button 2 (no buttons), alone or followed
    by one wheel event; and a [mouseup] with button 1, buttons 4 at the end.
    The gesture ends in [Mode.None] with no timer pending and the previous
    distance cleared. *)
Theorem pinch_drag
    (s : State) (el : Element) (env0 env1 : Env) (e0 e1 : TouchEvent)
    (first : Env * TouchEvent) (more : list (Env * TouchEvent)) :
  foreign e0 = false -> (2 <= List.length (touches e0))%nat ->
  all_accepted (first :: more) -> foreign e1 = false ->
  resolve (fst first) s = Some el ->
  let r := run s ((env0, Touchstart e0) :: moves (first :: more)
                  ++ [(env1, Touchend e1)]) in
  (exists chunks,
      map summary (events (snd r))
        = (mousedown, Some 1, Some 4) :: List.concat chunks
          ++ [(mouseup, Some 1, Some 4)] /\
      List.length chunks = List.length more /\
      Forall pinch_chunk chunks) /\
  mode (fst r) = Mode.None /\
  contextMenuTimer (fst r) = None /\
  prevDistance (fst r) = None.
Proof.
  intros F0 Hl Ha F1 R r. subst r. destruct first as [envf ef].
  inversion Ha as [|? ? Ff Ha']; subst. cbn [fst snd] in *.
  rewrite run_cons. cbn [step].
  rewrite (touchstart_accept _ _ _ F0). cbn [final effects fst snd].
  assert (Hm1 : mode (arm e0 (disarm s)) = Mode.PreZoomPan).
  { rewrite mode_arm. apply Nat.leb_le in Hl. rewrite Hl. reflexivity. }
  assert (R1 : resolve envf (arm e0 (disarm s)) = Some el).
  { unfold resolve in *. cbn. rewrite canvas_disarm. exact R. }
  rewrite run_app, run_moves_cons. cbn [fst snd step].
  rewrite (touchmove_PreZoomPan envf ef _ Ff Hm1). cbn [final effects].
  set (s2 := with_canvas _ (with_mode Mode.ZoomPan _)).
  assert (Hm2 : mode s2 = Mode.ZoomPan) by reflexivity.
  assert (Hc2 : canvas s2 = Some el) by (unfold s2; cbn; exact R1).
  destruct (pinch_moves el more s2 Hm2 Hc2 Ha')
    as ((chunks & I1 & I2 & I3) & I4 & I5).
  rewrite run_cons. cbn [run step fst snd].
  rewrite (touchend_ZoomPan env1 e1 _ F1 I4). cbn [final effects].
  pose proof (resolve_cached env1 _ el I5) as R3.
  repeat apply conj.
  - exists chunks. repeat apply conj; try assumption.
    cbn [app events]. rewrite !events_app, !map_app.
    rewrite events_cons_preventDefault, app_nil_r.
    rewrite (summary_dispatched _ el) by exact R1.
    rewrite (summary_dispatched _ el) by exact R3.
    rewrite I1, !summary_construct. reflexivity.
  - reflexivity.
  - cbn. apply contextMenuTimer_disarm.
  - reflexivity.
Qed.

Lemma pinch_drag_witness :
  let r := run initial
             ((demo_env, Touchstart wide)
              :: moves [(demo_env, wide); (demo_env, wide); (demo_env, narrow)]
              ++ [(demo_env, Touchend (on_canvas [touch_at 0 0]))]) in
  (exists chunks,
      map summary (events (snd r))
        = (mousedown, Some 1, Some 4) :: List.concat chunks
          ++ [(mouseup, Some 1, Some 4)] /\
      List.length chunks = 2%nat /\
      Forall pinch_chunk chunks) /\
  prevDistance (fst r) = None.
Proof.
  intros r.
  destruct (pinch_drag initial 7%nat demo_env demo_env wide
              (on_canvas [touch_at 0 0]) (demo_env, wide)
              [(demo_env, wide); (demo_env, narrow)])
    as (H & _ & _ & Hp).
  - reflexivity.
  - cbn. lia.
  - repeat constructor.
  - reflexivity.
  - reflexivity.
  - split; [exact H | exact Hp].
Defined.

(** X9. A two-finger tap: an accepted touch-start with two or more touch
    points followed by an accepted touch-end, with nothing but rejected
    notifications in between, dispatches no event at all.  The timer is
    disarmed, but the mode stays [Mode.PreZoomPan]; so the next accepted
    move, with no touch-start before it, dispatches a [mousedown] with
    button 1, buttons 4 and enters [Mode.ZoomPan]. *)
Theorem two_finger_tap
    (s : State) (env0 env1 env2 : Env) (e0 e1 e2 : TouchEvent)
    (between : list (Env * Notification)) (el : Element) :
  foreign e0 = false -> (2 <= List.length (touches e0))%nat ->
  Forall (fun en => rejected (snd en) = true) between ->
  foreign e1 = false -> foreign e2 = false ->
  resolve env2 s = Some el ->
  let r := run s ((env0, Touchstart e0) :: between ++ [(env1, Touchend e1)]) in
  let o := step env2 (Touchmove e2) (fst r) in
  events (snd r) = [] /\
  mode (fst r) = Mode.PreZoomPan /\
  contextMenuTimer (fst r) = None /\
  lookup_timer (nextHandle (disarm s)) (fst r) = None /\
  map summary (events (effects o)) = [(mousedown, Some 1, Some 4)] /\
  mode (final o) = Mode.ZoomPan.
Proof.
  intros F0 Hl Hb F1 F2 R r o. subst o r.
  rewrite run_cons, run_app, (run_rejected _ _ Hb). cbn [fst snd app step].
  rewrite !(touchstart_accept _ _ _ F0). cbn [final effects].
  rewrite run_cons. cbn [run step fst snd].
  assert (Hm : mode (arm e0 (disarm s)) = Mode.PreZoomPan).
  { rewrite mode_arm. apply Nat.leb_le in Hl. rewrite Hl. reflexivity. }
  rewrite (touchend_unhandled env1 e1 _ F1 (or_introl Hm)). cbn [final effects].
  assert (Hm' : mode (disarm (arm e0 (disarm s))) = Mode.PreZoomPan)
    by (rewrite mode_disarm; exact Hm).
  assert (R' : resolve env2 (disarm (arm e0 (disarm s))) = Some el).
  { rewrite resolve_disarm. unfold resolve in *. cbn.
    rewrite canvas_disarm. exact R. }
  rewrite (touchmove_PreZoomPan env2 e2 _ F2 Hm'). cbn [final effects].
  repeat apply conj.
  - reflexivity.
  - exact Hm'.
  - apply contextMenuTimer_disarm.
  - unfold lookup_timer. cbn. apply find_filter_out.
  - rewrite events_cons_preventDefault, (summary_dispatched _ el) by exact R'.
    rewrite summary_construct. reflexivity.
  - reflexivity.
Qed.

Lemma two_finger_tap_witness :
  let r := run initial [(demo_env, Touchstart wide);
                        (demo_env, Touchend (on_canvas []))] in
  events (snd r) = [] /\ mode (fst r) = Mode.PreZoomPan /\
  map summary (events (effects (step demo_env (Touchmove narrow) (fst r))))
    = [(mousedown, Some 1, Some 4)].
Proof.
  intros r.
  destruct (two_finger_tap initial demo_env demo_env demo_env wide
              (on_canvas []) narrow [] 7%nat)
    as (H1 & H2 & _ & _ & H5 & _).
  - reflexivity.
  - cbn. lia.
  - constructor.
  - reflexivity.
  - reflexivity.
  - reflexivity.
  - repeat apply conj; assumption.
Defined.

(** ** Long press with any number of fingers *)

(** X10. The long press does not look at the number of fingers: from any
    reachable state, an accepted touch-start whose timer expires with
    nothing but rejected notifications in between dispatches exactly a
    [mousedown] and a [mouseup] with button 2, buttons 2, placed by the
    coordinate rule on the touch-start's points (the midpoint of the first
    two when there are several), and returns to [Mode.None] from either
    pending mode. *)
Theorem long_press_any_fingers
    (s : State) (env0 env1 : Env) (e : TouchEvent)
    (between : list (Env * Notification)) (el : Element) :
  reachable s ->
  foreign e = false ->
  Forall (fun en => rejected (snd en) = true) between ->
  resolve env1 s = Some el ->
  let r := run s ((env0, Touchstart e) :: between
                  ++ [(env1, Timeout (nextHandle s))]) in
  mode (final (touchstart env0 e s)) = pending_mode e /\
  (exists down up,
      snd r = [PreventDefault; Dispatch el down; Dispatch el up] /\
      summary down = (mousedown, Some 2, Some 2) /\
      summary up = (mouseup, Some 2, Some 2) /\
      follows_rules e down /\ follows_rules e up) /\
  mode (fst r) = Mode.None /\
  contextMenuTimer (fst r) = None /\
  timers (fst r) = [].
Proof.
  intros Hr F Hb Hc r. subst r.
  apply reachable_timer_inv in Hr.
  destruct (disarm_clears s Hr) as (Dt & _ & Dn & _ & _ & Dc).
  rewrite run_cons, run_app, (run_rejected _ _ Hb). cbn [fst snd app step].
  rewrite !(touchstart_accept _ _ _ F). cbn [final effects].
  assert (L : lookup_timer (nextHandle s) (arm e (disarm s))
              = Some {| handle := nextHandle s; delay := 1000; closure := e |}).
  { unfold lookup_timer, arm. cbn. rewrite Dt, Dn. cbn.
    rewrite Pos.eqb_refl. reflexivity. }
  split; [reflexivity|].
  rewrite run_cons. cbn [run step fst snd].
  rewrite fire_eq, L, contextMenu_eq. cbn [closure final effects fst snd].
  assert (R : resolve env1 (final (clearTimeout (nextHandle s) (arm e (disarm s))))
              = Some el).
  { unfold resolve in *. cbn. rewrite Dc. exact Hc. }
  rewrite R. repeat apply conj.
  - eexists _, _. repeat apply conj; try reflexivity;
      try apply summary_construct;
      apply construct_follows_rules, no_override_common.
  - reflexivity.
  - reflexivity.
  - cbn. rewrite Dt, Dn. cbn. rewrite Pos.eqb_refl. reflexivity.
Qed.

Lemma long_press_any_fingers_witness :
  let r := run initial [(demo_env, Touchstart wide); (demo_env, Timeout 1)] in
  (exists down up,
      snd r = [PreventDefault; Dispatch 7%nat down; Dispatch 7%nat up] /\
      summary down = (mousedown, Some 2, Some 2) /\
      summary up = (mouseup, Some 2, Some 2) /\
      follows_rules wide down /\ follows_rules wide up) /\
  mode (fst r) = Mode.None.
Proof.
  intros r.
  destruct (long_press_any_fingers initial demo_env demo_env wide [] 7%nat)
    as (_ & H & Hm & _).
  - exists []. reflexivity.
  - reflexivity.
  - constructor.
  - reflexivity.
  - split; [exact H | exact Hm].
Defined.

(** ** When a timer is pending *)

Lemma pending_inv_step env n s :
  timer_inv s -> pending_inv s -> pending_inv (final (step env n s)).
Proof.
  intros Hi Hp.
  destruct (disarm_clears s Hi) as (Dt & _).
  step_cases n s; try exact Hp;
    try (intros x Hx; cbn in Hx; rewrite Dt in Hx; destruct Hx; fail).
  - intros x Hx. cbn in Hx. rewrite Dt in Hx. cbn in Hx.
    destruct Hx as [<-|[]]. cbn. auto.
  - intros x Hx. cbn in Hx.
    destruct (lookup_timer_inv _ _ _ Hi L) as (_ & Hts & Hh).
    rewrite Hts in Hx. cbn in Hx. rewrite Hh, Pos.eqb_refl in Hx.
    destruct Hx.
Qed.

Lemma pending_inv_run tr s :
  timer_inv s -> pending_inv s -> pending_inv (fst (run s tr)).
Proof.
  revert s. induction tr as [|[env n] tr IH]; intros s Hi Hp; [exact Hp|].
  rewrite run_cons. cbn [fst].
  apply IH; [apply timer_inv_step, Hi | apply pending_inv_step; assumption].
Qed.

(** X11. In every state the script can reach, a pending timer is the
    1000 ms context-menu timer of an accepted touch-start, and the script is
    still in the pending mode that touch-start chose: no move or touch-end
    has been accepted since.  So a timer expiry that dispatches anything
    finds the script in [Mode.PreRotate] or [Mode.PreZoomPan], never in the
    middle of a drag. *)
Theorem timer_pending_only_in_pending_modes
    (tr : list (Env * Notification)) :
  let s := fst (run initial tr) in
  (forall t, In t (timers s) ->
     contextMenuTimer s = Some (handle t) /\
     delay t = 1000%N /\
     foreign (closure t) = false /\
     mode s = pending_mode (closure t)) /\
  (forall env h,
     effects (step env (Timeout h) s) <> [] ->
     mode s = Mode.PreRotate \/ mode s = Mode.PreZoomPan).
Proof.
  intros s.
  assert (Hi : timer_inv s) by (apply timer_inv_run, timer_inv_initial).
  assert (Hp : pending_inv s).
  { apply pending_inv_run; [apply timer_inv_initial | intros t []]. }
  split.
  - intros t Ht. destruct (Hp t Ht) as (H1 & H2 & H3).
    repeat apply conj; try assumption.
    destruct Hi as [_ Hi]. destruct (contextMenuTimer s).
    + destruct Hi as (d & e & Hi). rewrite Hi in Ht.
      destruct Ht as [<-|[]]. reflexivity.
    + rewrite Hi in Ht. destruct Ht.
  - intros env h He. rewrite step_transition in He. cbn [transition] in He.
    destruct (lookup_timer h s) as [tm|] eqn:L; [|contradiction He; reflexivity].
    destruct (lookup_timer_inv _ _ _ Hi L) as (_ & Hts & _).
    destruct (Hp tm) as (_ & _ & Hm); [rewrite Hts; left; reflexivity|].
    rewrite Hm. unfold pending_mode.
    destruct (Nat.leb 2 (List.length (touches (closure tm)))); auto.
Qed.

(** ** What is dispatched, and by whom *)

Lemma in_dispatched_event env s e ty ei el ev :
  In (Dispatch el ev) (dispatched env s e ty ei) ->
  ev = construct ty (make_init e ei).
Proof.
  unfold dispatched. destruct (resolve env s); cbn; [|contradiction].
  intros [H|[]]. injection H as _ <-. reflexivity.
Qed.

Lemma well_formed_mouse e ty ei :
  ty <> mousewheel -> get "deltaY" ei = None ->
  well_formed (construct ty (make_init e ei)).
Proof.
  intros Hty Hd. unfold well_formed, deltaY, num_field.
  cbn [construct ev_type ev_ctor ev_init].
  rewrite get_hidden_key, Hd by (cbn; auto).
  destruct ty; try contradiction; auto.
Qed.

Lemma well_formed_wheel e env d p :
  well_formed (construct mousewheel (make_init e (wheel_init env d p))).
Proof.
  unfold well_formed, deltaY, num_field.
  cbn [construct ev_type ev_ctor ev_init].
  rewrite !get_hidden_key by (cbn; auto).
  repeat apply conj; try reflexivity. discriminate.
Qed.

(** X12. What a notification can dispatch.  A touch-start dispatches
    nothing.  Every dispatched event is built with the constructor that
    fits its type: a wheel event is a [WheelEvent] carrying a [deltaY] and
    no button, every other event a [MouseEvent] carrying no [deltaY].  And a
    wheel event only ever comes from an accepted move handled in
    [Mode.ZoomPan]. *)
Theorem dispatched_event_kinds
    (env : Env) (n : Notification) (s : State) (el : Element) (ev : SynthEvent) :
  In (Dispatch el ev) (effects (step env n s)) ->
  (forall e, n <> Touchstart e) /\
  well_formed ev /\
  (ev_type ev = mousewheel ->
   exists e, n = Touchmove e /\ foreign e = false /\ mode s = Mode.ZoomPan).
Proof.
  step_cases n s; intros H;
    repeat match goal with
      | H : In _ [] |- _ => destruct H
      | H : In _ (_ :: _) |- _ => destruct H as [H|H]; [discriminate|]
      | H : In _ (_ ++ _) |- _ => apply in_app_or in H; destruct H as [H|H]
      | H : In _ match prevDistance s with _ => _ end |- _ =>
          destruct (prevDistance s) as [p|]; [destruct (truthy p)|]
      | H : In _ (dispatched _ _ _ _ _) |- _ =>
          apply in_dispatched_event in H; subst ev
      end;
    (refine (conj _ (conj _ _));
     [ intros ?; discriminate
     | first [ apply well_formed_wheel
             | apply well_formed_mouse; [discriminate | reflexivity] ]
     | cbn [construct ev_type]; intros Hty;
       first [ discriminate Hty
             | eexists; repeat apply conj; [reflexivity | assumption | reflexivity] ] ]).
Qed.

Lemma dispatched_event_kinds_witness :
  let wh := construct mousewheel
              (make_init narrow (wheel_init demo_env 80 100)) in
  well_formed wh /\
  exists e, Touchmove narrow = Touchmove e /\ foreign e = false /\
            mode pinching_100 = Mode.ZoomPan.
Proof.
  intros wh.
  assert (H : In (Dispatch 7%nat wh)
                (effects (step demo_env (Touchmove narrow) pinching_100)))
    by (vm_compute; right; right; left; reflexivity).
  destruct (dispatched_event_kinds demo_env (Touchmove narrow) pinching_100
              7%nat wh H) as (_ & Hw & Ho).
  split; [exact Hw | apply Ho; reflexivity].
Defined.

(** ** Registration through the patch *)

(** X13. A series of registrations made through the patched
    [addEventListener] leaves the world exactly as the original function
    would after the same series with the touch-family types taken out: the
    others arrive unchanged and in order. *)
Theorem patch_filters_registrations
    (World Args Ret : Type)
    (original : EventTarget -> string -> Args -> World -> Ret * World)
    (regs : list (EventTarget * string * Args)) (w : World) :
  register_all (addEventListener World Args Ret original) regs w
  = register_all original
      (filter (fun r => negb (String.prefix "touch" (snd (fst r)))) regs) w.
Proof.
  unfold register_all. revert w.
  induction regs as [|[[this type] args] regs IH]; intros w; [reflexivity|].
  cbn [fold_left filter fst snd]. rewrite IH. unfold addEventListener.
  destruct (String.prefix "touch" type); reflexivity.
Qed.

Lemma call_keeps_prototype i this type args p :
  prototype_addEventListener (snd (call i this type args p))
  = prototype_addEventListener p.
Proof.
  revert p. induction i as [|o IH]; intros p; [reflexivity|].
  cbn [call snd]. unfold addEventListener.
  destruct (String.prefix "touch" type); cbn [negb snd]; [reflexivity|].
  apply IH.
Qed.

Lemma call_patched o this type args p :
  snd (call (Patched o) this type args p)
  = if String.prefix "touch" type then p else snd (call o this type args p).
Proof.
  cbn [call snd]. unfold addEventListener.
  destruct (String.prefix "touch" type); reflexivity.
Qed.

Lemma main_prototype p :
  prototype_addEventListener (main p) = Patched (prototype_addEventListener p).
Proof.
  unfold main, install_patch, document_addEventListener.
  cbn [prototype_addEventListener]. rewrite !call_keeps_prototype. reflexivity.
Qed.

Lemma main_registry_native p :
  prototype_addEventListener p = Native ->
  registry (main p) = registry p ++ own_listeners.
Proof.
  intros Hn. unfold main, install_patch, document_addEventListener.
  cbn [registry]. rewrite !call_keeps_prototype, Hn. cbn.
  rewrite <- !app_assoc. reflexivity.
Qed.

Lemma main_registry_patched p :
  prototype_addEventListener p = Patched Native ->
  registry (main p)
  = registry p ++ [own_registration "DOMContentLoaded" ManifestLoader None].
Proof.
  intros Hp. unfold main, install_patch, document_addEventListener.
  cbn [registry]. rewrite !call_keeps_prototype, Hp.
  rewrite !call_patched. reflexivity.
Qed.

(** X14. The order of the script matters and is right.  Loaded into a page
    whose [addEventListener] is still the browser's, the script registers
    its own four listeners on the document (the touch ones with
    [passive: false]) and only then installs the patch.  From then on a
    registration of a touch-family type changes nothing, and any other
    registration does what it did before the script ran, whatever was
    installed before.  Loaded a second time, the script gets only its
    [DOMContentLoaded] listener registered: its touch listeners are dropped
    by the first copy's patch. *)
Theorem script_registers_before_patching (p : Page) :
  (prototype_addEventListener p = Native ->
   registry (main p) = registry p ++ own_listeners /\
   prototype_addEventListener (main p) = Patched Native /\
   registry (main (main p))
     = registry p ++ own_listeners
       ++ [own_registration "DOMContentLoaded" ManifestLoader None])
  /\
  (forall this type args q,
     snd (call (prototype_addEventListener (main p)) this type args q)
     = if String.prefix "touch" type then q
       else snd (call (prototype_addEventListener p) this type args q)).
Proof.
  split.
  - intros Hn.
    assert (Pm : prototype_addEventListener (main p) = Patched Native)
      by (rewrite main_prototype, Hn; reflexivity).
    repeat apply conj.
    + apply main_registry_native, Hn.
    + exact Pm.
    + rewrite (main_registry_patched _ Pm), (main_registry_native _ Hn).
      rewrite <- app_assoc. reflexivity.
  - intros this type args q. rewrite main_prototype. apply call_patched.
Qed.

Lemma script_registers_before_patching_witness :
  let fresh := {| prototype_addEventListener := Native; registry := [] |} in
  registry (main fresh) = own_listeners /\
  registry (document_addEventListener "touchstart" (Host 1, None) (main fresh))
    = own_listeners /\
  registry (document_addEventListener "mousedown" (Host 2, None) (main fresh))
    = own_listeners ++ [{| reg_target := document; reg_type := "mousedown";
                           reg_listener := Host 2; reg_passive := None |}].
Proof.
  intros fresh.
  destruct (script_registers_before_patching fresh) as [H1 H2].
  destruct (H1 eq_refl) as (E & _ & _).
  repeat apply conj.
  - exact E.
  - unfold document_addEventListener.
    rewrite (H2 document "touchstart" (Host 1, None) (main fresh)).
    exact E.
  - unfold document_addEventListener.
    rewrite (H2 document "mousedown" (Host 2, None) (main fresh)).
    cbn. reflexivity.
Defined.

(** ** Where the quick tap lands *)

Lemma coordinate_zero_without_touches e ty ei k :
  touches e = [] -> no_coordinate_override ei -> In k coordinate_keys ->
  num_field k (construct ty (make_init e ei)) = Some 0.
Proof.
  intros Ht Hei Hk.
  assert (Hf : exists f, In (k, f) coordinate_fields).
  { cbn in Hk. decompose [or] Hk; try contradiction; subst;
      eexists; cbn; eauto 7. }
  destruct Hf as [f Hf].
  rewrite (coordinate_of_construct e ty ei k f Hf Hei), Ht. reflexivity.
Qed.

(** X15. The click of a quick tap is placed by the touch-end's own list of
    touch points, not by the touch-start's: when the touch-end carries no
    touch point (the only finger has been lifted), all three events of the
    click have every coordinate at 0, wherever the finger went down. *)
Theorem quick_tap_lands_at_origin
    (s : State) (env0 env1 : Env) (e0 e1 : TouchEvent)
    (between : list (Env * Notification)) (el : Element) :
  foreign e0 = false -> (List.length (touches e0) < 2)%nat ->
  foreign e1 = false -> touches e1 = [] ->
  Forall (fun en => rejected (snd en) = true) between ->
  resolve env1 s = Some el ->
  let r := run s ((env0, Touchstart e0) :: between ++ [(env1, Touchend e1)]) in
  map ev_type (events (snd r)) = [mousemove; mousedown; mouseup] /\
  forall ev, In ev (events (snd r)) ->
    forall k, In k coordinate_keys -> num_field k ev = Some 0.
Proof.
  intros F0 Hl F1 Ht Hb Hc r. subst r.
  rewrite run_cons, run_app, (run_rejected _ _ Hb). cbn [fst snd app step].
  rewrite !(touchstart_accept _ _ _ F0). cbn [final effects].
  rewrite run_cons. cbn [run step fst snd].
  assert (Hm : mode (arm e0 (disarm s)) = Mode.PreRotate).
  { rewrite mode_arm. apply Nat.leb_gt in Hl. rewrite Hl. reflexivity. }
  rewrite (touchend_PreRotate _ _ _ F1 Hm). cbn [final effects].
  assert (R : resolve env1 (arm e0 (disarm s)) = Some el).
  { unfold resolve in *. cbn. rewrite canvas_disarm. exact Hc. }
  rewrite R. cbn [app events]. split; [reflexivity|].
  intros ev Hev k Hk. cbn in Hev.
  destruct Hev as [<-|[<-|[<-|[]]]];
    apply coordinate_zero_without_touches; auto; intros ? _; reflexivity.
Qed.

Lemma quick_tap_lands_at_origin_witness :
  let r := run initial [ (demo_env, Touchstart (on_canvas [touch_at 100 100]));
                         (demo_env, Touchend (on_canvas [])) ] in
  map ev_type (events (snd r)) = [mousemove; mousedown; mouseup] /\
  map (num_field "clientX") (events (snd r)) = [Some 0; Some 0; Some 0].
Proof.
  intros r.
  destruct (quick_tap_lands_at_origin initial demo_env demo_env
              (on_canvas [touch_at 100 100]) (on_canvas []) [] 7%nat)
    as [H _].
  - reflexivity.
  - cbn. lia.
  - reflexivity.
  - reflexivity.
  - constructor.
  - reflexivity.
  - split; [exact H | vm_compute; reflexivity].
Defined.
